(** * VolumeCalculator: slicing volume estimation over a triangle mesh

    A shallow embedding of [VolumeCalculator] (TypeScript, on top of
    Babylon.js) and the properties of its specification.

    JavaScript numbers are IEEE-754 binary64 values; they are embedded as
    Rocq's primitive floats, so every arithmetic step below rounds, overflows
    and produces NaN exactly as the program does. *)

From Stdlib Require Import String Ascii DecimalString.
From Stdlib Require Import ZArith List Floats Lia Bool Permutation Sorted.
From Stdlib Require Import Reals Lra.
Import ListNotations.

Set Warnings "-inexact-float".

Local Open Scope float_scope.

(** ** JavaScript numbers and [Math], as ECMAScript specifies them *)

(** The number value of an integer: the nearest binary64 value. *)
Definition Z2F (n : Z) : float := SF2Prim (binary_normalize prec emax n 0 false).

(** The IEEE-754 value, as a specification float, nearest to the integer [n]. *)
Definition nearest (n : Z) : spec_float := binary_normalize prec emax n 0 false.

Definition spec_float_eqb (a b : spec_float) : bool :=
  match a, b with
  | S754_zero s, S754_zero s' => Bool.eqb s s'
  | S754_infinity s, S754_infinity s' => Bool.eqb s s'
  | S754_nan, S754_nan => true
  | S754_finite s m e, S754_finite s' m' e' =>
      Bool.eqb s s' && Pos.eqb m m' && Z.eqb e e'
  | _, _ => false
  end.

Module Math.

(** [Math.min(a, b)]: NaN when either argument is NaN, and -0 below +0. *)
Definition min (a b : float) : float :=
  if is_nan a || is_nan b then nan
  else if a <? b then a
  else if b <? a then b
  else if get_sign a then a else b.

(** [Math.abs(a)]. *)
Definition abs (a : float) : float := PrimFloat.abs a.

End Math.

(** ** [Number.prototype.toFixed], as ECMAScript specifies it *)

Module Number.

Local Open Scope string_scope.
Local Open Scope Z_scope.

(** Decimal digits of a non-negative integer. *)
Definition digits (n : Z) : string := NilZero.string_of_uint (N.to_uint (Z.to_N n)).

Fixpoint zeros (k : nat) : string :=
  match k with
  | O => ""
  | S k' => String "0" (zeros k')
  end.

(** The integer [n] for which [n / 10^f] is nearest to [m * 2^e], the larger
    one of two. *)
Definition scaled (f : nat) (m : positive) (e : Z) : Z :=
  let p := 10 ^ Z.of_nat f in
  match e with
  | Zneg d => (2 * Zpos m * p + 2 ^ Zpos d) / 2 ^ (Zpos d + 1)
  | _ => Zpos m * 2 ^ e * p
  end.

(** [n], printed with [f] digits after the point. *)
Definition fixed (f : nat) (n : Z) : string :=
  let m := digits n in
  match f with
  | O => m
  | _ =>
      let m := zeros (S f - String.length m) ++ m in
      let k := String.length m in
      substring 0 (k - f) m ++ "." ++ substring (k - f) f m
  end.

(** Number of decimal digits of a positive integer. *)
Definition ndigits (n : Z) : nat := String.length (digits n).

(** [Number::toString] for an integer value [v >= 10^21], which prints in
    exponent notation: the shortest digit string [s], of [k] digits, with
    [s * 10^(n-k)] rounding to [v]; the one nearest to [v], the even one of
    two at the same distance. *)
Definition candidates (v : Z) (k : nat) : list (Z * nat) :=
  let d := ndigits v in
  flat_map (fun n =>
    let p := 10 ^ Z.of_nat (n - k) in
    filter (fun c : Z * nat =>
              let s := fst c in
              (10 ^ Z.of_nat (k - 1) <=? s) && (s <? 10 ^ Z.of_nat k)
              && spec_float_eqb (nearest (s * p)) (nearest v))
           [(v / p, n); (v / p + 1, n)])
    [d; S d].

Definition closer (v : Z) (k : nat) (a b : Z * nat) : Z * nat :=
  let dist (c : Z * nat) := Z.abs (fst c * 10 ^ Z.of_nat (snd c - k) - v) in
  if dist b <? dist a then b
  else if dist a <? dist b then a
  else if Z.even (fst a) then a else b.

Fixpoint shortest (v : Z) (k : nat) (fuel : nat) : option (Z * nat * nat) :=
  match fuel with
  | O => None
  | S fuel' =>
      match candidates v k with
      | [] => shortest v (S k) fuel'
      | c :: cs => let b := fold_left (closer v k) cs c in Some (fst b, snd b, k)
      end
  end.

Definition exponential (v : Z) : string :=
  match shortest v 1 17 with
  | None => ""
  | Some (s, n, k) =>
      let ds := digits s in
      let e := digits (Z.of_nat n - 1) in
      match k with
      | 1%nat => ds ++ "e+" ++ e
      | _ => substring 0 1 ds ++ "." ++ substring 1 (k - 1) ds ++ "e+" ++ e
      end
  end.

(** [x.toFixed(f)], for [0 <= f <= 100]. *)
Definition toFixed (v : float) (f : nat) : string :=
  match Prim2SF v with
  | S754_nan => "NaN"
  | S754_infinity s => if s then "-Infinity" else "Infinity"
  | S754_zero _ => fixed f 0
  | S754_finite s m e =>
      let sign := if s then "-" else "" in
      if (0 <=? e) && (10 ^ 21 <=? Zpos m * 2 ^ e)
      then sign ++ exponential (Zpos m * 2 ^ e)
      else sign ++ fixed f (scaled f m e)
  end.

End Number.

(** ** Babylon.js values the calculator reads *)

(** [Vector3]: three numbers.  Its constructor defaults an argument that is
    [undefined] to 0. *)
Record Vector3 := new_Vector3 { x : float; y : float; z : float }.

Module Vec3.

(** [a.add(b)]. *)
Definition add (a b : Vector3) : Vector3 :=
  new_Vector3 (x a + x b) (y a + y b) (z a + z b).

(** [a.scale(s)]. *)
Definition scale (a : Vector3) (s : float) : Vector3 :=
  new_Vector3 (x a * s) (y a * s) (z a * s).

End Vec3.

(** A mesh, as far as the calculator looks at it: [getVerticesData("position")]
    (a flat array of coordinates, or null), [getIndices()] (a flat array of
    vertex indices, or null), and the elevations of the world bounding box,
    [getBoundingInfo().boundingBox.minimumWorld.y] and [maximumWorld.y]. *)
Record Mesh := {
  positions : option (list float);
  indices : option (list nat);
  minimumWorld_y : float;
  maximumWorld_y : float
}.

(** [new Vector3(positions[k * 3], positions[k * 3 + 1], positions[k * 3 + 2])]
    for the index [k] read from [indices]; a read outside an array is
    [undefined], here as an index [None] or the coordinate the constructor
    puts in its place. *)
Definition coordinate (ps : list float) (i : nat) : float := nth i ps 0.

Definition vertex (ps : list float) (k : option nat) : Vector3 :=
  match k with
  | Some k => new_Vector3 (coordinate ps (k * 3)) (coordinate ps (k * 3 + 1))
                          (coordinate ps (k * 3 + 2))
  | None => new_Vector3 0 0 0
  end.

(** ** [Map<string, Vector3>], in insertion order *)

Module Map.

Definition t (V : Type) := list (string * V).

Definition empty {V : Type} : t V := [].

(** [m.set(k, v)]: a present key keeps its place and takes the new value. *)
Fixpoint set {V : Type} (k : string) (v : V) (m : t V) : t V :=
  match m with
  | [] => [(k, v)]
  | (k', v') :: m' =>
      if String.eqb k' k then (k', v) :: m' else (k', v') :: set k v m'
  end.

(** [m.get(k)]. *)
Fixpoint get {V : Type} (k : string) (m : t V) : option V :=
  match m with
  | [] => None
  | (k', v') :: m' => if String.eqb k' k then Some v' else get k m'
  end.

(** [Array.from(m.values())]. *)
Definition values {V : Type} (m : t V) : list V := map snd m.

Definition keys {V : Type} (m : t V) : list string := map fst m.

End Map.

(** ** [Array.prototype.sort] *)

Module Array.

Section Sort.
Context {A : Type}.
(** The comparator; an element goes before another when the result is
    negative, and a NaN result counts as 0. *)
Variable comparefn : A -> A -> float.

Fixpoint insert (a : A) (l : list A) : list A :=
  match l with
  | [] => [a]
  | b :: l' => if comparefn a b <? 0 then a :: l else b :: insert a l'
  end.

(** The sort is stable: equal elements keep their order.  With a
    comparator that is not a consistent order (here: when a comparison is
    not a number) the language leaves the result open (some permutation);
    this is one of them, and an engine may give another.  What is proved
    below of the order of the result is for comparisons that are numbers;
    the rest uses only that the result is a permutation. *)
Definition sort (l : list A) : list A :=
  fold_left (fun sorted a => insert a sorted) l [].
End Sort.

(** [for (let i = 0; i < n; i++) s = body(i, s)], for an integer [n]. *)
Definition for_range {S : Type} (n : Z) (body : Z -> S -> S) (s0 : S) : S :=
  fold_left (fun s i => body (Z.of_nat i) s) (seq 0 (Z.to_nat n)) s0.

End Array.

(** ** The calculator *)

Module VolumeCalculator.

(** The accumulation loop of [calculatePolygonArea], over the in-plane
    coordinates [(x, z)] of the points and over the arithmetic it is given:
    [area += p[i].x * p[j].z; area -= p[j].x * p[i].z] with
    [j = (i + 1) % n]. *)
Section Shoelace.
Context {N : Type}.
Variables (add sub mul : N -> N -> N) (zero : N).

Definition shoelace_step (pts : list (N * N)) (area : N) (i : nat) : N :=
  let j := ((i + 1) mod length pts)%nat in
  let pi := nth i pts (zero, zero) in
  let pj := nth j pts (zero, zero) in
  sub (add area (mul (fst pi) (snd pj))) (mul (fst pj) (snd pi)).

Definition shoelace (pts : list (N * N)) : N :=
  fold_left (shoelace_step pts) (seq 0 (length pts)) zero.
End Shoelace.

Definition in_plane (p : Vector3) : float * float := (x p, z p).

(** [calculatePolygonArea(points)] *)
Definition calculatePolygonArea (points : list Vector3) : float :=
  if (length points <? 3)%nat then 0
  else Math.abs (shoelace PrimFloat.add PrimFloat.sub PrimFloat.mul 0 (map in_plane points)) / 2.

(** The test of [findIntersectionPoints] on one edge. *)
Definition crosses (p q : Vector3) (height : float) : bool :=
  ((y p <=? height) && (height <=? y q)) || ((height <=? y p) && (y q <=? height)).

Definition intersection (p q : Vector3) (height : float) : Vector3 :=
  let t := (height - y p) / (y q - y p) in
  new_Vector3 (x p + t * (x q - x p)) height (z p + t * (z q - z p)).

(** [findIntersectionPoints(v1, v2, v3, height, intersectionPoints)]: the
    array after the call. *)
Definition findIntersectionPoints (v1 v2 v3 : Vector3) (height : float)
    (intersectionPoints : list Vector3) : list Vector3 :=
  fold_left
    (fun points (edge : Vector3 * Vector3) =>
       let (p, q) := edge in
       if crosses p q height then points ++ [intersection p q height] else points)
    [(v1, v2); (v2, v3); (v3, v1)] intersectionPoints.

Definition pointKey (point : Vector3) : string :=
  (Number.toFixed (x point) 6 ++ ":" ++ Number.toFixed (z point) 6)%string.

(** The map [uniquePoints] once every point is set under its key. *)
Definition uniquePoints (points : list Vector3) : Map.t Vector3 :=
  fold_left (fun uniquePoints point => Map.set (pointKey point) point uniquePoints)
            points Map.empty.

(** [removeDuplicatePoints(points)] *)
Definition removeDuplicatePoints (points : list Vector3) : list Vector3 :=
  Map.values (uniquePoints points).

(** The loop of [calculateCrossSectionArea] over the triangles, three
    indices at a time; the last one may be short of indices. *)
Fixpoint triangles (ps : list float) (ids : list nat) (height : float)
    (intersectionPoints : list Vector3) : list Vector3 :=
  match ids with
  | [] => intersectionPoints
  | i1 :: is1 =>
      let v1 := vertex ps (Some i1) in
      match is1 with
      | [] => findIntersectionPoints v1 (vertex ps None) (vertex ps None) height
                intersectionPoints
      | i2 :: is2 =>
          let v2 := vertex ps (Some i2) in
          match is2 with
          | [] => findIntersectionPoints v1 v2 (vertex ps None) height intersectionPoints
          | i3 :: is3 =>
              triangles ps is3 height
                (findIntersectionPoints v1 v2 (vertex ps (Some i3)) height
                   intersectionPoints)
          end
      end
  end.

Section Platform.

(** [Math.atan2], which the language leaves to the platform. *)
Variable atan2 : float -> float -> float.

(** [sortPointsByAngle(points)] *)
Definition sortPointsByAngle (points : list Vector3) : list Vector3 :=
  let center :=
    Vec3.scale (fold_left Vec3.add points (new_Vector3 0 0 0))
               (1 / Z2F (Z.of_nat (length points))) in
  Array.sort
    (fun a b =>
       let angleA := atan2 (z a - z center) (x a - x center) in
       let angleB := atan2 (z b - z center) (x b - x center) in
       angleA - angleB)
    points.

(** [calculateCrossSectionArea(mesh, height)] *)
Definition calculateCrossSectionArea (mesh : Mesh) (height : float) : float :=
  match positions mesh, indices mesh with
  | Some ps, Some ids =>
      let intersectionPoints := triangles ps ids height [] in
      let intersectionPoints := removeDuplicatePoints intersectionPoints in
      let intersectionPoints := sortPointsByAngle intersectionPoints in
      calculatePolygonArea intersectionPoints
  | _, _ => 0
  end.

(** One turn of the loop over the slices. *)
Definition slice (mesh : Mesh) (minY sliceHeight : float) (i : Z)
    (totalVolume : float) : float :=
  let currentHeight := minY + Z2F i * sliceHeight in
  let nextHeight := currentHeight + sliceHeight in
  let area1 := calculateCrossSectionArea mesh currentHeight in
  let area2 := calculateCrossSectionArea mesh nextHeight in
  let sliceVolume := (sliceHeight * (area1 + area2)) / 2 in
  totalVolume + sliceVolume.

(** [calculateVolumeUpToHeight(mesh, height, slices)], for an integer
    number of slices (a caller that passes none gets 100). *)
Definition calculateVolumeUpToHeight (mesh : Mesh) (height : float) (slices : Z)
    : float :=
  match positions mesh, indices mesh with
  | Some _, Some _ =>
      let minY := minimumWorld_y mesh in
      let maxY := Math.min height (maximumWorld_y mesh) in
      if height <? minY then 0
      else
        let sliceHeight := (maxY - minY) / Z2F slices in
        Array.for_range slices (slice mesh minY sliceHeight) 0
  | _, _ => 0
  end.

End Platform.

End VolumeCalculator.

Import VolumeCalculator.

(** * The specification's words, and inputs to run the calculator on *)




(** The loop of [calculateVolumeUpToHeight] over the slices, with the
    arithmetic and the area evaluator as parameters: over binary64 and the
    cross-section evaluator it is the loop of the code, over the real numbers
    it is what the loop computes without rounding. *)
Section SlicesOver.
Context {N : Type}.
Variables (add mul div : N -> N -> N) (number : Z -> N) (areaAt : N -> N).


End SlicesOver.




(** An edge meets the cutting plane when one endpoint's elevation is at or
    above the plane and the other's is at or below it. *)
Definition meetsPlane (p q : Vector3) (elevation : float) : Prop :=
  ((elevation <=? y p) = true /\ (y q <=? elevation) = true)
  \/ ((elevation <=? y q) = true /\ (y p <=? elevation) = true).

Definition meetsPlaneb (p q : Vector3) (elevation : float) : bool :=
  ((elevation <=? y p) && (y q <=? elevation))
  || ((elevation <=? y q) && (y p <=? elevation)).

(** The three edges of a triangle, in the order the finder visits them. *)
Definition edgesOf (v1 v2 v3 : Vector3) : list (Vector3 * Vector3) :=
  [(v1, v2); (v2, v3); (v3, v1)].

(** What one edge contributes: its intersection point when it meets the
    plane, nothing otherwise. *)
Definition edgePoints (elevation : float) (edge : Vector3 * Vector3) : list Vector3 :=
  if meetsPlaneb (fst edge) (snd edge) elevation
  then [intersection (fst edge) (snd edge) elevation] else [].

(** The last point of a list that has the key [k]. *)
Definition lastWithKey (k : string) (points : list Vector3) : option Vector3 :=
  find (fun q => String.eqb (pointKey q) k) (rev points).

(** The consecutive pairs of a ring of points, the last point paired with the
    first. *)
Definition ringEdges {A : Type} (ring : list A) : list (A * A) :=
  combine ring (tl ring ++ firstn 1 ring).

(** The shoelace accumulation over a list of edges, each a pair of points given
    by their in-plane coordinates: for the edge from [(xi, zi)] to [(xj, zj)]
    add [xi * zj], then subtract [xj * zi]. *)
Definition shoelaceOver {N : Type} (add sub mul : N -> N -> N) (zero : N)
    (edges : list ((N * N) * (N * N))) : N :=
  fold_left (fun area e =>
               sub (add area (mul (fst (fst e)) (snd (snd e))))
                   (mul (fst (snd e)) (snd (fst e))))
            edges zero.

(** The shoelace sum over the real numbers: the sum over the edges of
    [xi * zj - xj * zi]. *)
Definition crossR (e : (R * R) * (R * R)) : R :=
  (fst (fst e) * snd (snd e) - fst (snd e) * snd (fst e))%R.

Definition shoelaceSumR (ring : list (R * R)) : R :=
  fold_right Rplus 0%R (map crossR (ringEdges ring)).

(** The sum of the cross terms along an open path of points. *)
Fixpoint pathSum (l : list (R * R)) : R :=
  match l with
  | a :: (b :: _) as l' => (crossR (a, b) + pathSum l')%R
  | _ => 0%R
  end.

(** A square of side 2, as a ring, and the same ring from its second vertex. *)
Definition square : list Vector3 :=
  [new_Vector3 0.1 0 0.1; new_Vector3 2.1 0 0.1;
   new_Vector3 2.1 0 2.1; new_Vector3 0.1 0 2.1].

Definition square_from_second : list Vector3 :=
  [new_Vector3 2.1 0 0.1; new_Vector3 2.1 0 2.1;
   new_Vector3 0.1 0 2.1; new_Vector3 0.1 0 0.1].

(** A square of side 2 far from the origin, with whole coordinates, as a
    ring, and the same ring from its second vertex. *)
Definition far_square : list Vector3 :=
  [new_Vector3 94906263 0 94906263; new_Vector3 94906265 0 94906263;
   new_Vector3 94906265 0 94906265; new_Vector3 94906263 0 94906265].

Definition far_square_from_second : list Vector3 :=
  [new_Vector3 94906265 0 94906263; new_Vector3 94906265 0 94906265;
   new_Vector3 94906263 0 94906265; new_Vector3 94906263 0 94906263].

(** An angle function to run the examples with: the diamond angle, which
    orders directions as [Math.atan2] does. *)
Definition diamond (b a : float) : float :=
  let d := abs a + abs b in
  if d =? 0 then 0
  else let r := 1 - a / d in if b <? 0 then - r else r.

(** Two pyramids on one triangular base at elevation 1, with their tips at
    elevations 0 and 2. *)
Definition bipyramid : Mesh := {|
  positions := Some [0; 0; 0;   4; 1; 0;   0; 1; 4;   0; 1; 0;   0; 2; 0];
  indices := Some [0; 1; 2;  0; 2; 3;  0; 3; 1;  4; 1; 2;  4; 2; 3;  4; 3; 1]%nat;
  minimumWorld_y := 0;
  maximumWorld_y := 2
|}.

(** A tetrahedron standing on the plane of elevation 0, its tip at elevation 1. *)
Definition tetrahedron : Mesh := {|
  positions := Some [0; 0; 0;   1; 0; 0;   0; 0; 1;   0; 1; 0];
  indices := Some [0; 1; 2;  0; 1; 3;  1; 2; 3;  2; 0; 3]%nat;
  minimumWorld_y := 0;
  maximumWorld_y := 1
|}.

(** The unit cube, two triangles a face. *)
Definition cube : Mesh := {|
  positions := Some [0; 0; 0;   1; 0; 0;   1; 0; 1;   0; 0; 1;
                     0; 1; 0;   1; 1; 0;   1; 1; 1;   0; 1; 1];
  indices := Some [0; 1; 2;  0; 2; 3;  4; 5; 6;  4; 6; 7;
                   0; 1; 5;  0; 5; 4;  1; 2; 6;  1; 6; 5;
                   2; 3; 7;  2; 7; 6;  3; 0; 4;  3; 4; 7]%nat;
  minimumWorld_y := 0;
  maximumWorld_y := 1
|}.

(** One triangle, from elevation 0 up to a level edge at elevation 1. *)
Definition one_triangle : Mesh := {|
  positions := Some [0; 0; 0;   1; 1; 0;   0; 1; 1];
  indices := Some [0; 1; 2]%nat;
  minimumWorld_y := 0;
  maximumWorld_y := 1
|}.

(** A mesh without position data. *)
Definition no_positions : Mesh := {|
  positions := None;
  indices := Some [0; 1; 2]%nat;
  minimumWorld_y := 0;
  maximumWorld_y := 0
|}.

(** The centre [sortPointsByAngle] measures the angles from, and the angle of
    a point around a centre. *)
Definition centroid (points : list Vector3) : Vector3 :=
  Vec3.scale (fold_left Vec3.add points (new_Vector3 0 0 0))
             (1 / Z2F (Z.of_nat (length points))).

Definition angleAround (atan2 : float -> float -> float) (center p : Vector3) : float :=
  atan2 (z p - z center) (x p - x center).

(** The distinct keys of a list, each at the place of its first occurrence. *)
Definition firstOccurrences (ks : list string) : list string :=
  fold_left (fun seen k => if existsb (String.eqb k) seen then seen else seen ++ [k])
            ks [].

(** A specification float below zero, and one whose sign bit is clear. *)
Definition negative_sf (f : spec_float) : bool :=
  match f with
  | S754_finite true _ _ | S754_infinity true => true
  | _ => false
  end.

Definition positive_sf (f : spec_float) : bool :=
  match f with
  | S754_zero false | S754_infinity false | S754_finite false _ _ | S754_nan => true
  | _ => false
  end.

(** A specification float that is a zero, of either sign, or not a number. *)
Definition zero_or_nan_sf (f : spec_float) : bool :=
  match f with
  | S754_zero _ | S754_nan => true
  | _ => false
  end.

(** The binary64 float of a whole number below 2^53 in magnitude: its sign,
    its mantissa on 53 bits and its exponent. *)
Definition whole_sf (n : Z) : spec_float :=
  let f := (Zdigits2 n - prec)%Z in
  match n with
  | Z0 => S754_zero false
  | Zpos p => S754_finite false (Z.to_pos (Zpos p * 2 ^ (- f))) f
  | Zneg p => S754_finite true (Z.to_pos (Zpos p * 2 ^ (- f))) f
  end.

(** A point in the plane with whole coordinates, as the code has it; the
    shoelace accumulation of [calculatePolygonArea] over the integers; and
    a point with both coordinates between 0 and a bound. *)
Definition wholePoint (p : Z * Z) : Vector3 := new_Vector3 (Z2F (fst p)) 0 (Z2F (snd p)).

Definition shoelaceZ (ring : list (Z * Z)) : Z := shoelace Z.add Z.sub Z.mul 0%Z ring.

Definition within (B : Z) (p : Z * Z) : Prop :=
  (0 <= fst p <= B)%Z /\ (0 <= snd p <= B)%Z.

(** Proof automation: the order of the specification floats, by cases. *)
Ltac sf_cases :=
  unfold SFltb, SFleb, SFeqb;
  repeat match goal with a : spec_float |- _ => destruct a as [?|?| |? ? ?] end;
  simpl; try discriminate; try reflexivity;
  repeat match goal with s : bool |- _ => destruct s end;
  simpl; try discriminate; try reflexivity; auto;
  change (Pos.compare_cont Eq) with Pos.compare;
  repeat match goal with
    | |- context [(?e ?= ?e')%Z] => destruct (Z.compare_spec e e'); subst
    | |- context [(?m ?= ?m')%positive] => destruct (Pos.compare_spec m m'); subst
    end;
  simpl; try discriminate; try reflexivity; auto; try lia.

(** Proof automation: the cases of the edge test. *)
Ltac meets_cases :=
  repeat match goal with
         | |- context [meetsPlaneb ?a ?b ?c] => destruct (meetsPlaneb a b c)
         end.

(** Proof automation: an integer comparison with 0. *)
Ltac zltb :=
  match goal with
  | |- (_ <? 0)%Z = true => apply Z.ltb_lt
  | |- (_ <? 0)%Z = false => apply Z.ltb_ge
  end; lia.

(** * Facts about binary64 arithmetic *)

Section FloatFacts.

Lemma Prim2SF_nan : Prim2SF nan = S754_nan.
Proof. reflexivity. Qed.

Lemma is_nan_spec (a : float) : is_nan a = true <-> a = nan.
Proof.
  unfold is_nan. rewrite FloatAxioms.eqb_spec. split.
  - intros H. apply Prim2SF_inj. rewrite Prim2SF_nan.
    destruct (Prim2SF a) as [s|s| |s m e]; try reflexivity; exfalso.
    + discriminate H.
    + destruct s; discriminate H.
    + unfold SFeqb, SFcompare in H.
      destruct s; rewrite Z.compare_refl, Pos.compare_cont_refl in H; discriminate H.
  - intros ->. reflexivity.
Qed.

Lemma nan_add_l (a : float) : nan + a = nan.
Proof. apply Prim2SF_inj. rewrite add_spec, Prim2SF_nan. reflexivity. Qed.

Lemma nan_add_r (a : float) : a + nan = nan.
Proof.
  apply Prim2SF_inj. rewrite add_spec, Prim2SF_nan.
  destruct (Prim2SF a) as [[]|[]| |]; reflexivity.
Qed.

Lemma nan_sub_l (a : float) : nan - a = nan.
Proof. apply Prim2SF_inj. rewrite sub_spec, Prim2SF_nan. reflexivity. Qed.

Lemma nan_sub_r (a : float) : a - nan = nan.
Proof.
  apply Prim2SF_inj. rewrite sub_spec, Prim2SF_nan.
  destruct (Prim2SF a) as [[]|[]| |]; reflexivity.
Qed.

Lemma nan_mul_l (a : float) : nan * a = nan.
Proof. apply Prim2SF_inj. rewrite mul_spec, Prim2SF_nan. reflexivity. Qed.

Lemma nan_mul_r (a : float) : a * nan = nan.
Proof.
  apply Prim2SF_inj. rewrite mul_spec, Prim2SF_nan.
  destruct (Prim2SF a) as [[]|[]| |]; reflexivity.
Qed.

Lemma nan_div_l (a : float) : nan / a = nan.
Proof. apply Prim2SF_inj. rewrite div_spec, Prim2SF_nan. reflexivity. Qed.

Lemma nan_abs : abs nan = nan.
Proof. reflexivity. Qed.

Lemma SFltb_leb_trans (a b c : spec_float) :
  SFltb a b = true -> SFleb b c = true -> SFltb a c = true.
Proof. sf_cases. Qed.

Lemma SFleb_ltb_trans (a b c : spec_float) :
  SFleb a b = true -> SFltb b c = true -> SFltb a c = true.
Proof. sf_cases. Qed.

Lemma SFleb_not_ltb (a b : spec_float) : SFleb a b = true -> SFltb b a = false.
Proof. sf_cases. Qed.

Lemma SFltb_not_ltb (a b : spec_float) : SFltb a b = true -> SFltb b a = false.
Proof. sf_cases. Qed.

Lemma SFltb_not_nan (a b : spec_float) :
  SFltb a b = true -> SFeqb a a = true /\ SFeqb b b = true.
Proof. sf_cases. Qed.

Lemma SFleb_total (a b : spec_float) :
  SFeqb a a = true -> SFeqb b b = true -> SFleb a b = true \/ SFleb b a = true.
Proof. sf_cases. Qed.

Lemma SFleb_refl (a : spec_float) : SFeqb a a = true -> SFleb a a = true.
Proof. sf_cases. Qed.

Lemma SFltb_irrefl (a : spec_float) : SFltb a a = false.
Proof. sf_cases. Qed.

(** The same for the numbers of the program. *)
Lemma ltb_leb_trans (a b c : float) :
  (a <? b) = true -> (b <=? c) = true -> (a <? c) = true.
Proof. rewrite !FloatAxioms.ltb_spec, FloatAxioms.leb_spec. apply SFltb_leb_trans. Qed.

Lemma leb_ltb_trans (a b c : float) :
  (a <=? b) = true -> (b <? c) = true -> (a <? c) = true.
Proof. rewrite !FloatAxioms.ltb_spec, FloatAxioms.leb_spec. apply SFleb_ltb_trans. Qed.

Lemma leb_not_ltb (a b : float) : (a <=? b) = true -> (b <? a) = false.
Proof. rewrite FloatAxioms.ltb_spec, FloatAxioms.leb_spec. apply SFleb_not_ltb. Qed.

Lemma ltb_not_ltb (a b : float) : (a <? b) = true -> (b <? a) = false.
Proof. rewrite !FloatAxioms.ltb_spec. apply SFltb_not_ltb. Qed.

Lemma ltb_not_nan (a b : float) :
  (a <? b) = true -> is_nan a = false /\ is_nan b = false.
Proof.
  unfold is_nan. rewrite FloatAxioms.ltb_spec, !FloatAxioms.eqb_spec.
  intros H. destruct (SFltb_not_nan _ _ H) as [-> ->]. split; reflexivity.
Qed.

Lemma leb_total (a b : float) :
  is_nan a = false -> is_nan b = false -> (a <=? b) = true \/ (b <=? a) = true.
Proof.
  unfold is_nan. rewrite !FloatAxioms.leb_spec, !FloatAxioms.eqb_spec, !negb_false_iff.
  apply SFleb_total.
Qed.

Lemma leb_refl (a : float) : is_nan a = false -> (a <=? a) = true.
Proof.
  unfold is_nan. rewrite FloatAxioms.leb_spec, FloatAxioms.eqb_spec, negb_false_iff.
  apply SFleb_refl.
Qed.

Lemma ltb_irrefl (a : float) : (a <? a) = false.
Proof. rewrite FloatAxioms.ltb_spec. apply SFltb_irrefl. Qed.

(** [Math.min] at and above its second argument. *)
Lemma min_above (m h : float) : (m <? h) = true -> Math.min h m = m.
Proof.
  intros H. unfold Math.min.
  destruct (ltb_not_nan _ _ H) as [Hm Hh]. rewrite Hm, Hh. simpl.
  rewrite (ltb_not_ltb _ _ H), H. reflexivity.
Qed.

Lemma min_self (m : float) : is_nan m = false -> Math.min m m = m.
Proof.
  intros H. unfold Math.min. rewrite H, ltb_irrefl. simpl.
  destruct (get_sign m); reflexivity.
Qed.

End FloatFacts.

(** * The loop over the slices, read over the real numbers *)


Section RealReading.
Local Open Scope R_scope.
Variable areaAt : R -> R.


Hypothesis area_nonneg : forall a, 0 <= areaAt a.
Hypothesis area_mono : forall a b, a <= b -> areaAt a <= areaAt b.


End RealReading.

(** * The volume estimator *)

Section Estimator.

Variable atan2 : float -> float -> float.

Lemma for_range_nonpos {S : Type} (n : Z) (body : Z -> S -> S) (s0 : S) :
  (n <= 0)%Z -> Array.for_range n body s0 = s0.
Proof.
  intros H. unfold Array.for_range.
  replace (Z.to_nat n) with 0%nat by lia. reflexivity.
Qed.

(** Above the top of a well-formed bounding box the estimate is the one at
    the top. *)
Lemma volume_clamped (mesh : Mesh) (height : float) (slices : Z) :
  (minimumWorld_y mesh <=? maximumWorld_y mesh) = true ->
  (maximumWorld_y mesh <? height) = true ->
  calculateVolumeUpToHeight atan2 mesh height slices
  = calculateVolumeUpToHeight atan2 mesh (maximumWorld_y mesh) slices.
Proof.
  intros Hbox Habove. unfold calculateVolumeUpToHeight.
  destruct (positions mesh); [|reflexivity].
  destruct (indices mesh); [|reflexivity].
  rewrite (min_above _ _ Habove).
  rewrite (min_self (maximumWorld_y mesh)) by apply (ltb_not_nan _ _ Habove).
  rewrite (leb_not_ltb _ _ Hbox).
  rewrite (ltb_not_ltb _ _ (leb_ltb_trans _ _ _ Hbox Habove)).
  reflexivity.
Qed.

Lemma volume_below (mesh : Mesh) (height : float) (slices : Z) :
  (height <? minimumWorld_y mesh) = true ->
  calculateVolumeUpToHeight atan2 mesh height slices = 0.
Proof.
  intros H. unfold calculateVolumeUpToHeight.
  destruct (positions mesh); [|reflexivity].
  destruct (indices mesh); [|reflexivity].
  rewrite H. reflexivity.
Qed.


End Estimator.

(** C6: without position data or without index data the estimate (and every
    cross-section area) is exactly 0, and so is the estimate for a target
    elevation strictly below the mesh's minimum elevation; the function is
    total, so nothing is thrown. *)
Theorem degenerate_inputs_give_zero (atan2 : float -> float -> float)
    (mesh : Mesh) (height : float) (slices : Z) :
  (positions mesh = None \/ indices mesh = None ->
   calculateVolumeUpToHeight atan2 mesh height slices = 0
   /\ calculateCrossSectionArea atan2 mesh height = 0)
  /\ ((height <? minimumWorld_y mesh) = true ->
      calculateVolumeUpToHeight atan2 mesh height slices = 0).
Proof.
  split.
  - unfold calculateVolumeUpToHeight, calculateCrossSectionArea.
    intros [H | H]; rewrite H.
    + split; reflexivity.
    + destruct (positions mesh); split; reflexivity.
  - apply volume_below.
Qed.

Lemma degenerate_inputs_give_zero_witness :
  (calculateVolumeUpToHeight diamond no_positions 1 100 = 0
   /\ calculateCrossSectionArea diamond no_positions 1 = 0)
  /\ calculateVolumeUpToHeight diamond bipyramid (-1) 100 = 0.
Proof.
  split.
  - apply (proj1 (degenerate_inputs_give_zero diamond no_positions 1 100)).
    left. reflexivity.
  - apply (proj2 (degenerate_inputs_give_zero diamond bipyramid (-1) 100)).
    reflexivity.
Defined.

(** C10: with a slice count that is zero or negative the loop over the slices
    runs no turn and the estimate is 0, for every mesh and target elevation;
    the division by the slice count is a floating-point division, which
    faults on nothing. *)
Theorem nonpositive_slices_give_zero (atan2 : float -> float -> float)
    (mesh : Mesh) (height : float) (slices : Z) :
  (slices <= 0)%Z ->
  calculateVolumeUpToHeight atan2 mesh height slices = 0.
Proof.
  intros H. unfold calculateVolumeUpToHeight.
  destruct (positions mesh); [|reflexivity].
  destruct (indices mesh); [|reflexivity].
  destruct (height <? minimumWorld_y mesh); [reflexivity|].
  apply for_range_nonpos, H.
Qed.

Lemma nonpositive_slices_give_zero_witness :
  calculateVolumeUpToHeight diamond bipyramid 1 0 = 0
  /\ calculateVolumeUpToHeight diamond bipyramid 1 (-3) = 0.
Proof.
  split; apply nonpositive_slices_give_zero; lia.
Defined.

(** C5: for a mesh whose bounding box is well formed (its minimum elevation
    is at most its maximum), a target elevation above the maximum gives the
    estimate of the maximum itself, whatever the slice count. *)
Theorem clamping (atan2 : float -> float -> float)
    (mesh : Mesh) (elevation : float) (sliceCount : Z) :
  (minimumWorld_y mesh <=? maximumWorld_y mesh) = true ->
  (maximumWorld_y mesh <? elevation) = true ->
  calculateVolumeUpToHeight atan2 mesh elevation sliceCount
  = calculateVolumeUpToHeight atan2 mesh (maximumWorld_y mesh) sliceCount.
Proof. apply volume_clamped. Qed.

Lemma clamping_witness :
  calculateVolumeUpToHeight diamond bipyramid 7.5 3
  = calculateVolumeUpToHeight diamond bipyramid 2 3.
Proof.
  apply (clamping diamond bipyramid 7.5 3); reflexivity.
Defined.



(** * The intersection finder *)

Section Finder.

Lemma meetsPlaneb_spec (p q : Vector3) (h : float) :
  meetsPlaneb p q h = true <-> meetsPlane p q h.
Proof.
  unfold meetsPlaneb, meetsPlane.
  rewrite orb_true_iff, !andb_true_iff. reflexivity.
Qed.

Lemma crosses_meetsPlaneb (p q : Vector3) (h : float) :
  crosses p q h = meetsPlaneb p q h.
Proof.
  unfold crosses, meetsPlaneb.
  destruct (y p <=? h), (h <=? y q), (h <=? y p), (y q <=? h); reflexivity.
Qed.

Lemma findIntersectionPoints_edges (edges : list (Vector3 * Vector3)) (h : float)
    (acc : list Vector3) :
  fold_left
    (fun points (edge : Vector3 * Vector3) =>
       let (p, q) := edge in
       if crosses p q h then points ++ [intersection p q h] else points)
    edges acc
  = acc ++ flat_map (edgePoints h) edges.
Proof.
  revert acc. induction edges as [|[p q] edges IH]; intros acc; simpl.
  - now rewrite app_nil_r.
  - rewrite IH. unfold edgePoints at 2. simpl. rewrite crosses_meetsPlaneb.
    destruct (meetsPlaneb p q h); simpl.
    + now rewrite <- app_assoc.
    + reflexivity.
Qed.

End Finder.

(** C3, as the finder does it: the call appends, in the order of the edges
    v1-v2, v2-v3, v3-v1, one point for each edge that meets the plane (one
    endpoint at or above the plane elevation, the other at or below it) and
    nothing else, so between 0 and 3 points, each at the plane elevation; and
    a vertex that lies exactly on the plane makes both of its edges meet the
    plane, so it is reported once per adjacent edge. *)
Theorem findIntersectionPoints_per_edge (v1 v2 v3 : Vector3) (elevation : float)
    (accumulator : list Vector3) :
  let points := flat_map (edgePoints elevation) (edgesOf v1 v2 v3) in
  findIntersectionPoints v1 v2 v3 elevation accumulator = accumulator ++ points
  /\ (length points <= 3)%nat
  /\ length points
     = length (filter (fun edge : Vector3 * Vector3 =>
                         meetsPlaneb (fst edge) (snd edge) elevation)
                      (edgesOf v1 v2 v3))
  /\ (forall p q, meetsPlaneb p q elevation = true <-> meetsPlane p q elevation)
  /\ Forall (fun p => y p = elevation) points
  /\ (y v1 = elevation -> is_nan elevation = false ->
      is_nan (y v2) = false -> is_nan (y v3) = false ->
      meetsPlane v1 v2 elevation /\ meetsPlane v3 v1 elevation).
Proof.
  intros points.
  split; [unfold findIntersectionPoints; apply findIntersectionPoints_edges|].
  split; [unfold points, edgesOf, edgePoints; simpl; meets_cases; simpl; lia|].
  split; [unfold points, edgesOf, edgePoints; simpl; meets_cases; reflexivity|].
  split; [intros p q; apply meetsPlaneb_spec|].
  split; [unfold points, edgesOf, edgePoints; simpl; meets_cases; repeat constructor|].
  intros Hv1 Hh H2 H3. unfold meetsPlane. rewrite Hv1, (leb_refl _ Hh).
  destruct (leb_total _ _ Hh H2) as [E2 | E2], (leb_total _ _ Hh H3) as [E3 | E3];
    rewrite ?E2, ?E3; auto.
Qed.

Lemma findIntersectionPoints_per_edge_witness :
  meetsPlane (new_Vector3 0 0 0) (new_Vector3 1 1 0) 0
  /\ meetsPlane (new_Vector3 1 (-1) 0) (new_Vector3 0 0 0) 0.
Proof.
  apply (findIntersectionPoints_per_edge
           (new_Vector3 0 0 0) (new_Vector3 1 1 0) (new_Vector3 1 (-1) 0) 0 []);
    reflexivity.
Defined.

(** C3 fails at "at most 2": a triangle with one vertex on the plane and the
    other two on either side of it has three edges that meet the plane, and
    the finder appends three points (the vertex twice). *)
Lemma findIntersectionPoints_three_points :
  findIntersectionPoints (new_Vector3 0 0 0) (new_Vector3 1 1 0) (new_Vector3 1 (-1) 0) 0 []
  = [new_Vector3 0 0 0; new_Vector3 1 0 0; new_Vector3 0 0 0].
Proof. reflexivity. Qed.

(** * Deduplication *)

Section Dedup.

Context {V : Type}.
Implicit Types (m : Map.t V) (k : string) (v : V).

Lemma get_set k k' v m :
  Map.get k (Map.set k' v m) = if String.eqb k' k then Some v else Map.get k m.
Proof.
  induction m as [|[k0 v0] m IH]; simpl.
  - reflexivity.
  - destruct (String.eqb k0 k') eqn:E0; simpl.
    + apply String.eqb_eq in E0. subst k0.
      destruct (String.eqb k' k); reflexivity.
    + rewrite IH. destruct (String.eqb k0 k) eqn:E1; [|reflexivity].
      apply String.eqb_eq in E1. subst k0.
      rewrite String.eqb_sym, E0. reflexivity.
Qed.

Lemma get_keys k m : In k (Map.keys m) <-> Map.get k m <> None.
Proof.
  induction m as [|[k0 v0] m IH]; simpl.
  - split; [intros [] | congruence].
  - destruct (String.eqb k0 k) eqn:E.
    + apply String.eqb_eq in E. split; [congruence | auto].
    + apply String.eqb_neq in E. rewrite <- IH. tauto.
Qed.

Lemma keys_set k v m :
  forall k', In k' (Map.keys (Map.set k v m)) <-> k' = k \/ In k' (Map.keys m).
Proof.
  intros k'. rewrite !get_keys, get_set.
  destruct (String.eqb k k') eqn:E.
  - apply String.eqb_eq in E. split; [auto | congruence].
  - apply String.eqb_neq in E. split; [auto | intros [->|]; congruence].
Qed.

Lemma NoDup_keys_set k v m : NoDup (Map.keys m) -> NoDup (Map.keys (Map.set k v m)).
Proof.
  induction m as [|[k0 v0] m IH]; simpl; intros H.
  - repeat constructor. intros [].
  - inversion H as [|? ? Hin Hnd]; subst.
    destruct (String.eqb k0 k) eqn:E; simpl.
    + constructor; assumption.
    + constructor; [|apply IH, Hnd].
      change (~ In k0 (Map.keys (Map.set k v m))). rewrite keys_set.
      apply String.eqb_neq in E. intros [->|]; [congruence | contradiction].
Qed.

Lemma get_In k v m : Map.get k m = Some v -> In (k, v) m.
Proof.
  induction m as [|[k0 v0] m IH]; simpl; [discriminate|].
  destruct (String.eqb k0 k) eqn:E.
  - apply String.eqb_eq in E. intros [= ->]. left. now subst.
  - auto.
Qed.

Lemma In_get k v m : NoDup (Map.keys m) -> In (k, v) m -> Map.get k m = Some v.
Proof.
  induction m as [|[k0 v0] m IH]; simpl; [intros _ []|].
  intros Hnd [[= -> ->] | Hin].
  - now rewrite String.eqb_refl.
  - inversion Hnd as [|? ? Hk Hnd']; subst.
    destruct (String.eqb k0 k) eqn:E; [|auto].
    apply String.eqb_eq in E. subst k0. exfalso. apply Hk.
    change (In (fst (k, v)) (map fst m)). now apply in_map.
Qed.

End Dedup.

Section DedupPoints.

Lemma uniquePoints_snoc (points : list Vector3) (p : Vector3) :
  uniquePoints (points ++ [p]) = Map.set (pointKey p) p (uniquePoints points).
Proof. unfold uniquePoints. now rewrite fold_left_app. Qed.

Lemma uniquePoints_NoDup (points : list Vector3) : NoDup (Map.keys (uniquePoints points)).
Proof.
  induction points as [|p points IH] using rev_ind.
  - constructor.
  - rewrite uniquePoints_snoc. now apply NoDup_keys_set.
Qed.

Lemma uniquePoints_get (k : string) (points : list Vector3) :
  Map.get k (uniquePoints points) = lastWithKey k points.
Proof.
  induction points as [|p points IH] using rev_ind.
  - reflexivity.
  - rewrite uniquePoints_snoc, get_set, IH.
    unfold lastWithKey. rewrite rev_app_distr. reflexivity.
Qed.

Lemma lastWithKey_Some (k : string) (points : list Vector3) (p : Vector3) :
  lastWithKey k points = Some p -> In p points /\ pointKey p = k.
Proof.
  unfold lastWithKey. intros H. apply find_some in H. destruct H as [Hin Hk].
  split; [now apply in_rev | now apply String.eqb_eq].
Qed.

Lemma lastWithKey_None (k : string) (points : list Vector3) :
  lastWithKey k points = None -> forall q, In q points -> pointKey q <> k.
Proof.
  unfold lastWithKey. intros H q Hq.
  apply String.eqb_neq.
  apply (find_none _ _ H q). now apply -> in_rev.
Qed.

Lemma uniquePoints_entries (points : list Vector3) (k : string) (p : Vector3) :
  In (k, p) (uniquePoints points) -> lastWithKey k points = Some p.
Proof.
  intros H. rewrite <- uniquePoints_get.
  apply In_get; [apply uniquePoints_NoDup | assumption].
Qed.

Lemma uniquePoints_keys (points : list Vector3) :
  map pointKey (Map.values (uniquePoints points)) = Map.keys (uniquePoints points).
Proof.
  unfold Map.values, Map.keys. rewrite map_map.
  apply map_ext_in. intros [k p] Hin. simpl.
  apply uniquePoints_entries, lastWithKey_Some in Hin. tauto.
Qed.

Lemma removeDuplicatePoints_keys (points : list Vector3) :
  NoDup (map pointKey (removeDuplicatePoints points))
  /\ forall k, In k (map pointKey (removeDuplicatePoints points))
               <-> In k (map pointKey points).
Proof.
  unfold removeDuplicatePoints.
  rewrite uniquePoints_keys. split; [apply uniquePoints_NoDup|].
  intros k. rewrite get_keys, uniquePoints_get, in_map_iff. split.
  - destruct (lastWithKey k points) as [p|] eqn:E; [|congruence].
    intros _. exists p. apply lastWithKey_Some in E. tauto.
  - intros [q [Hk Hq]] E. exact (lastWithKey_None _ _ E q Hq Hk).
Qed.

Lemma removeDuplicatePoints_last (points : list Vector3) (p : Vector3) :
  In p (removeDuplicatePoints points) <->
  lastWithKey (pointKey p) points = Some p.
Proof.
  unfold removeDuplicatePoints.
  unfold Map.values. rewrite in_map_iff. split.
  - intros [[k q] [E Hin]]. simpl in E. subst q.
    pose proof (uniquePoints_entries _ _ _ Hin) as H.
    destruct (lastWithKey_Some _ _ _ H) as [_ <-]. exact H.
  - intros H. exists (pointKey p, p). split; [reflexivity|].
    apply get_In. now rewrite uniquePoints_get.
Qed.

End DedupPoints.

(** C7, as the code does it: the result holds exactly one point for every
    distinct key of the input, the key of a point being its two in-plane
    coordinates printed with 6 decimal digits, and that point is the last
    point of the input with the key.  So two points collapse into one exactly
    when their keys are equal. *)
Theorem removeDuplicatePoints_one_per_key (points : list Vector3) :
  let result := removeDuplicatePoints points in
  NoDup (map pointKey result)
  /\ (forall k, In k (map pointKey result) <-> In k (map pointKey points))
  /\ (forall p, In p result <-> lastWithKey (pointKey p) points = Some p)
  /\ (forall p q, In p result -> In q result -> pointKey p = pointKey q -> p = q).
Proof.
  intros result.
  destruct (removeDuplicatePoints_keys points) as [Hnd Hkeys].
  split; [exact Hnd|]. split; [exact Hkeys|].
  split; [apply removeDuplicatePoints_last|].
  intros p q Hp Hq E.
  apply removeDuplicatePoints_last in Hp. apply removeDuplicatePoints_last in Hq.
  rewrite E in Hp. congruence.
Qed.

Lemma removeDuplicatePoints_one_per_key_witness :
  lastWithKey (pointKey (new_Vector3 1.0000001 5 2))
              [new_Vector3 1 0 2; new_Vector3 1.0000001 5 2]
  = Some (new_Vector3 1.0000001 5 2).
Proof.
  apply (proj1 (proj1 (proj2 (proj2
           (removeDuplicatePoints_one_per_key
              [new_Vector3 1 0 2; new_Vector3 1.0000001 5 2]))) _)).
  vm_compute. left. reflexivity.
Defined.

(** C7 fails at "within 1e-6 collapse": the two points below are less than
    1e-6 apart in both in-plane coordinates, yet their first coordinates print
    as 0.000000 and 0.000001, and both points are kept. *)
Lemma near_points_both_kept :
  let p := new_Vector3 0.000000476837158203125 0 0 in
  let q := new_Vector3 0.00000095367431640625 0 0 in
  (abs (x q - x p) <? 0.000001) = true
  /\ (abs (z q - z p) <? 0.000001) = true
  /\ pointKey p = "0.000000:0.000000"%string
  /\ pointKey q = "0.000001:0.000000"%string
  /\ removeDuplicatePoints [p; q] = [p; q].
Proof. vm_compute. repeat split. Qed.

(** * The polygon area *)

Section Ring.

Context {A : Type}.

Lemma fold_left_map_seq {St B : Type} (f : St -> B -> St) (g : nat -> B) (l : list nat)
    (s : St) :
  fold_left f (map g l) s = fold_left (fun s i => f s (g i)) l s.
Proof. revert s. induction l as [|i l IH]; intros s; simpl; [reflexivity | apply IH]. Qed.

(** A loop over the indices of two lists of one length is a loop over their
    pairs. *)
Lemma fold_left_indices {St : Type} (F : St -> A -> A -> St) (d : A) (l l' : list A)
    (s : St) :
  length l = length l' ->
  fold_left (fun s i => F s (nth i l d) (nth i l' d)) (seq 0 (length l)) s
  = fold_left (fun s e => F s (fst e) (snd e)) (combine l l') s.
Proof.
  revert l' s. induction l as [|a l IH]; intros [|a' l'] s H; try discriminate H.
  - reflexivity.
  - simpl. rewrite <- seq_shift.
    rewrite (fold_left_map_seq
               (fun s i => F s (nth i (a :: l) d) (nth i (a' :: l') d)) S).
    simpl. apply IH. now injection H.
Qed.

(** The successor of an index around the ring. *)
Lemma nth_next (d : A) (l : list A) (i : nat) :
  (i < length l)%nat ->
  nth ((i + 1) mod length l) l d = nth i (tl l ++ firstn 1 l) d.
Proof.
  destruct l as [|a l]; simpl length; [lia|]. intros Hi.
  change (tl (a :: l) ++ firstn 1 (a :: l)) with (l ++ [a]).
  destruct (Nat.eq_dec i (length l)) as [-> | Hne].
  - replace (length l + 1)%nat with (S (length l)) by lia.
    rewrite Nat.Div0.mod_same, nth_middle. reflexivity.
  - rewrite Nat.mod_small by lia.
    rewrite app_nth1 by lia.
    replace (i + 1)%nat with (S i) by lia. reflexivity.
Qed.

Lemma ringEdges_length (l : list A) : length (tl l ++ firstn 1 l) = length l.
Proof. destruct l as [|a l]; simpl; [reflexivity|]. rewrite length_app. simpl. lia. Qed.

End Ring.

Section ShoelaceFacts.

Context {N : Type}.
Variables (add sub mul : N -> N -> N) (zero : N).

Lemma shoelace_loop (pts : list (N * N)) (idx : list nat) (area : N) :
  (forall i, In i idx -> (i < length pts)%nat) ->
  fold_left (shoelace_step add sub mul zero pts) idx area
  = fold_left
      (fun area i =>
         (fun area p q => sub (add area (mul (fst p) (snd q))) (mul (fst q) (snd p)))
           area (nth i pts (zero, zero)) (nth i (tl pts ++ firstn 1 pts) (zero, zero)))
      idx area.
Proof.
  revert area. induction idx as [|i idx IH]; intros area H; simpl; [reflexivity|].
  rewrite IH by (intros; apply H; now right).
  f_equal. unfold shoelace_step.
  rewrite (nth_next (zero, zero) pts i) by (apply H; now left).
  reflexivity.
Qed.

(** The loop of [calculatePolygonArea] runs over the edges of the ring. *)
Lemma shoelace_ringEdges (pts : list (N * N)) :
  shoelace add sub mul zero pts = shoelaceOver add sub mul zero (ringEdges pts).
Proof.
  unfold shoelace, shoelaceOver, ringEdges.
  rewrite shoelace_loop by (intros i Hi; apply in_seq in Hi; lia).
  apply (fold_left_indices
           (fun area p q => sub (add area (mul (fst p) (snd q))) (mul (fst q) (snd p)))).
  symmetry. apply ringEdges_length.
Qed.

End ShoelaceFacts.

Section ExactShoelace.

Local Open Scope R_scope.

Lemma shoelaceOver_sum (edges : list ((R * R) * (R * R))) (area : R) :
  fold_left (fun area e =>
               area + fst (fst e) * snd (snd e) - fst (snd e) * snd (fst e))
            edges area
  = area + fold_right Rplus 0 (map crossR edges).
Proof.
  revert area. induction edges as [|e edges IH]; intros area; simpl.
  - ring.
  - rewrite IH. unfold crossR. ring.
Qed.

Lemma shoelace_exact (ring : list (R * R)) :
  shoelace Rplus Rminus Rmult 0 ring = shoelaceSumR ring.
Proof.
  rewrite shoelace_ringEdges. unfold shoelaceOver, shoelaceSumR.
  rewrite shoelaceOver_sum. ring.
Qed.

Lemma pathSum_app (l : list (R * R)) (b : R * R) (m : list (R * R)) :
  pathSum (l ++ b :: m) = pathSum (l ++ [b]) + pathSum (b :: m).
Proof.
  induction l as [|a l IH].
  - simpl. ring.
  - destruct l as [|c l].
    + simpl. destruct m; simpl; ring.
    + change (pathSum ((a :: c :: l) ++ b :: m))
        with (crossR (a, c) + pathSum ((c :: l) ++ b :: m)).
      change (pathSum ((a :: c :: l) ++ [b]))
        with (crossR (a, c) + pathSum ((c :: l) ++ [b])).
      rewrite IH. ring.
Qed.

Lemma ringEdges_pathSum (a : R * R) (l : list (R * R)) (c : R * R) :
  fold_right Rplus 0 (map crossR (combine (a :: l) (l ++ [c]))) = pathSum (a :: l ++ [c]).
Proof.
  revert a. induction l as [|b l IH]; intros a.
  - simpl. ring.
  - change (fold_right Rplus 0 (map crossR (combine (a :: b :: l) ((b :: l) ++ [c]))))
      with (crossR (a, b) + fold_right Rplus 0 (map crossR (combine (b :: l) (l ++ [c])))).
    rewrite IH. reflexivity.
Qed.

Lemma shoelaceSumR_pathSum (a : R * R) (l : list (R * R)) :
  shoelaceSumR (a :: l) = pathSum (a :: l ++ [a]).
Proof. unfold shoelaceSumR, ringEdges. apply ringEdges_pathSum. Qed.

Lemma shoelaceSumR_rotate (l1 l2 : list (R * R)) :
  shoelaceSumR (l2 ++ l1) = shoelaceSumR (l1 ++ l2).
Proof.
  destruct l1 as [|a l1]; [now rewrite app_nil_r|].
  destruct l2 as [|b l2]; [now rewrite app_nil_r|].
  change ((b :: l2) ++ a :: l1) with (b :: (l2 ++ a :: l1)).
  change ((a :: l1) ++ b :: l2) with (a :: (l1 ++ b :: l2)).
  rewrite !shoelaceSumR_pathSum.
  change (b :: (l2 ++ a :: l1) ++ [b]) with ((b :: l2 ++ a :: l1) ++ [b]).
  change (a :: (l1 ++ b :: l2) ++ [a]) with ((a :: l1 ++ b :: l2) ++ [a]).
  replace ((b :: l2 ++ a :: l1) ++ [b]) with ((b :: l2) ++ a :: (l1 ++ [b]))
    by (simpl; now rewrite <- app_assoc).
  replace ((a :: l1 ++ b :: l2) ++ [a]) with ((a :: l1) ++ b :: (l2 ++ [a]))
    by (simpl; now rewrite <- app_assoc).
  rewrite (pathSum_app (b :: l2) a (l1 ++ [b])).
  rewrite (pathSum_app (a :: l1) b (l2 ++ [a])).
  simpl app. ring.
Qed.

End ExactShoelace.


(** * Edges that lie in the cutting plane *)

Section NotANumber.

(** The interpolation parameter of an edge whose two ends are at the plane
    elevation is 0 / 0. *)
Lemma div_sub_self (h : float) : (h - h) / (h - h) = nan.
Proof.
  apply Prim2SF_inj. rewrite div_spec, sub_spec, Prim2SF_nan.
  destruct (Prim2SF h) as [[]|[]| |s m e]; try reflexivity.
  unfold SF64sub, SFsub. rewrite Z.sub_diag. reflexivity.
Qed.

Lemma intersection_in_plane (p q : Vector3) (h : float) :
  y p = h -> y q = h ->
  intersection p q h = new_Vector3 nan h nan.
Proof.
  intros Hp Hq. unfold intersection. rewrite Hp, Hq, div_sub_self.
  now rewrite !nan_mul_l, !nan_add_r.
Qed.

Lemma crosses_in_plane (p q : Vector3) (h : float) :
  y p = h -> y q = h -> is_nan h = false -> crosses p q h = true.
Proof.
  intros Hp Hq Hh. unfold crosses. now rewrite Hp, Hq, (leb_refl _ Hh).
Qed.

(** Not-a-number is absorbing for the shoelace accumulation. *)
Lemma shoelaceOver_nan (edges : list ((float * float) * (float * float))) :
  fold_left (fun area e =>
               area + fst (fst e) * snd (snd e) - fst (snd e) * snd (fst e))
            edges nan = nan.
Proof.
  induction edges as [|e edges IH]; simpl; [reflexivity|].
  now rewrite nan_add_l, nan_sub_l.
Qed.

Lemma shoelaceOver_nan_edge (edges : list ((float * float) * (float * float)))
    (e : (float * float) * (float * float)) (area : float) :
  In e edges -> fst (fst e) = nan ->
  fold_left (fun area e =>
               area + fst (fst e) * snd (snd e) - fst (snd e) * snd (fst e))
            edges area = nan.
Proof.
  revert area. induction edges as [|e' edges IH]; intros area Hin He; [destruct Hin|].
  destruct Hin as [-> | Hin]; simpl.
  - rewrite He, nan_mul_l, nan_add_r, nan_sub_l. apply shoelaceOver_nan.
  - now apply IH.
Qed.

Lemma ringEdges_fst {A : Type} (l : list A) (a : A) :
  In a l -> exists b, In (a, b) (ringEdges l).
Proof.
  unfold ringEdges. intros Hin.
  pose proof (ringEdges_length l) as Hlen.
  revert Hlen Hin. generalize (tl l ++ firstn 1 l) as l'.
  induction l as [|c l IH]; intros [|c' l'] Hlen Hin; try discriminate Hlen.
  - destruct Hin.
  - destruct Hin as [-> | Hin].
    + exists c'. now left.
    + destruct (IH l') as [b Hb]; [now injection Hlen | assumption |].
      exists b. now right.
Qed.

(** A point with a not-a-number coordinate makes the area of a polygon
    not-a-number. *)
Lemma calculatePolygonArea_nan (points : list Vector3) (p : Vector3) :
  (3 <= length points)%nat -> In p points -> x p = nan ->
  calculatePolygonArea points = nan.
Proof.
  intros Hlen Hin Hx. unfold calculatePolygonArea.
  apply Nat.ltb_ge in Hlen. rewrite Hlen.
  rewrite shoelace_ringEdges. unfold shoelaceOver.
  destruct (ringEdges_fst (map in_plane points) (in_plane p)) as [b Hb];
    [now apply in_map|].
  rewrite (shoelaceOver_nan_edge _ _ _ Hb Hx). reflexivity.
Qed.

(** [Array.prototype.sort] permutes. *)
Lemma insert_perm {A : Type} (cmp : A -> A -> float) (a : A) (l : list A) :
  Permutation (Array.insert cmp a l) (a :: l).
Proof.
  induction l as [|b l IH]; simpl.
  - reflexivity.
  - destruct (cmp a b <? 0).
    + reflexivity.
    + rewrite IH. apply perm_swap.
Qed.

Lemma sort_perm {A : Type} (cmp : A -> A -> float) (l : list A) :
  Permutation (Array.sort cmp l) l.
Proof.
  unfold Array.sort.
  assert (H : forall acc, Permutation
                (fold_left (fun sorted a => Array.insert cmp a sorted) l acc) (acc ++ l)).
  { induction l as [|a l IH]; intros acc; simpl.
    - now rewrite app_nil_r.
    - rewrite IH, insert_perm. apply Permutation_middle. }
  apply (H []).
Qed.

Variable atan2 : float -> float -> float.

Lemma sortPointsByAngle_perm (points : list Vector3) :
  Permutation (sortPointsByAngle atan2 points) points.
Proof. apply sort_perm. Qed.

(** Not-a-number is absorbing for the loop over the slices. *)
Lemma slice_nan (mesh : Mesh) (minY sliceHeight : float) (i : Z) :
  slice atan2 mesh minY sliceHeight i nan = nan.
Proof. unfold slice. apply nan_add_l. Qed.

Lemma slice_area_nan (mesh : Mesh) (minY sliceHeight : float) (i : Z) (total : float) :
  calculateCrossSectionArea atan2 mesh (minY + Z2F i * sliceHeight) = nan ->
  slice atan2 mesh minY sliceHeight i total = nan.
Proof.
  intros H. unfold slice. rewrite H.
  now rewrite nan_add_l, nan_mul_r, nan_div_l, nan_add_r.
Qed.

Lemma slices_nan (mesh : Mesh) (minY sliceHeight : float) (l : list nat) :
  fold_left (fun s i => slice atan2 mesh minY sliceHeight (Z.of_nat i) s) l nan = nan.
Proof.
  induction l as [|i l IH]; simpl; [reflexivity|]. now rewrite slice_nan.
Qed.

Lemma slices_area_nan (mesh : Mesh) (minY sliceHeight : float) (l : list nat) (i : nat)
    (total : float) :
  In i l ->
  calculateCrossSectionArea atan2 mesh (minY + Z2F (Z.of_nat i) * sliceHeight) = nan ->
  fold_left (fun s i => slice atan2 mesh minY sliceHeight (Z.of_nat i) s) l total = nan.
Proof.
  revert total. induction l as [|j l IH]; intros total Hin H; [destruct Hin|].
  destruct Hin as [-> | Hin]; simpl.
  - rewrite (slice_area_nan _ _ _ _ _ H). apply slices_nan.
  - now apply IH.
Qed.

(** One cross-section area that is not a number, at the lower end of any
    slice, makes the whole estimate not a number. *)
Lemma volume_nan (mesh : Mesh) (ps : list float) (ids : list nat)
    (height : float) (slices : Z) (i : Z) :
  positions mesh = Some ps -> indices mesh = Some ids ->
  (height <? minimumWorld_y mesh) = false ->
  (0 <= i < slices)%Z ->
  calculateCrossSectionArea atan2 mesh
    (minimumWorld_y mesh
     + Z2F i * ((Math.min height (maximumWorld_y mesh) - minimumWorld_y mesh) / Z2F slices))
  = nan ->
  calculateVolumeUpToHeight atan2 mesh height slices = nan.
Proof.
  intros Hps Hids Hmin Hi H. unfold calculateVolumeUpToHeight.
  rewrite Hps, Hids, Hmin. unfold Array.for_range.
  apply (slices_area_nan _ _ _ _ (Z.to_nat i)).
  - apply in_seq. lia.
  - now rewrite Z2Nat.id by lia.
Qed.

End NotANumber.

Lemma tetrahedron_base_points :
  removeDuplicatePoints
    (triangles [0; 0; 0;   1; 0; 0;   0; 0; 1;   0; 1; 0]
               [0; 1; 2;  0; 1; 3;  1; 2; 3;  2; 0; 3]%nat 0 [])
  = [new_Vector3 nan 0 nan; new_Vector3 1 0 0; new_Vector3 0 0 0; new_Vector3 0 0 1].
Proof. vm_compute. reflexivity. Qed.

Lemma tetrahedron_base_area (atan2 : float -> float -> float) :
  calculateCrossSectionArea atan2 tetrahedron 0 = nan.
Proof.
  unfold calculateCrossSectionArea. cbn [positions indices tetrahedron].
  rewrite tetrahedron_base_points.
  apply (calculatePolygonArea_nan _ (new_Vector3 nan 0 nan)).
  - rewrite (Permutation_length (sortPointsByAngle_perm atan2 _)). simpl. lia.
  - apply (Permutation_in _ (Permutation_sym (sortPointsByAngle_perm atan2 _))).
    now left.
  - reflexivity.
Qed.

Lemma cube_base_points :
  removeDuplicatePoints
    (triangles [0; 0; 0;   1; 0; 0;   1; 0; 1;   0; 0; 1;
                0; 1; 0;   1; 1; 0;   1; 1; 1;   0; 1; 1]
               [0; 1; 2;  0; 2; 3;  4; 5; 6;  4; 6; 7;
                0; 1; 5;  0; 5; 4;  1; 2; 6;  1; 6; 5;
                2; 3; 7;  2; 7; 6;  3; 0; 4;  3; 4; 7]%nat 0 [])
  = [new_Vector3 nan 0 nan; new_Vector3 1 0 0; new_Vector3 0 0 0;
     new_Vector3 1 0 1; new_Vector3 0 0 1].
Proof. vm_compute. reflexivity. Qed.

Lemma cube_base_area (atan2 : float -> float -> float) :
  calculateCrossSectionArea atan2 cube 0 = nan.
Proof.
  unfold calculateCrossSectionArea. cbn [positions indices cube].
  rewrite cube_base_points.
  apply (calculatePolygonArea_nan _ (new_Vector3 nan 0 nan)).
  - rewrite (Permutation_length (sortPointsByAngle_perm atan2 _)). simpl. lia.
  - apply (Permutation_in _ (Permutation_sym (sortPointsByAngle_perm atan2 _))).
    now left.
  - reflexivity.
Qed.

(** C2, on the code: the finder has no guard.  Every edge whose two ends are
    at the plane elevation passes the edge test, its interpolation parameter is
    0 / 0, and the point pushed for it has not-a-number for both in-plane
    coordinates; these reach the area and the volume.  On the tetrahedron that
    stands on the plane of elevation 0, the base triangle gives three such
    points, the cross-section area at elevation 0 is not a number, and neither
    is the estimate up to the tip with one slice. *)
Theorem horizontal_edge_reaches_the_volume :
  (forall (p q : Vector3) (height : float),
     y p = height -> y q = height -> is_nan height = false ->
     crosses p q height = true
     /\ intersection p q height = new_Vector3 nan height nan)
  /\ findIntersectionPoints
       (new_Vector3 0 0 0) (new_Vector3 1 0 0) (new_Vector3 0 0 1) 0 []
     = [new_Vector3 nan 0 nan; new_Vector3 nan 0 nan; new_Vector3 nan 0 nan]
  /\ (forall atan2, calculateCrossSectionArea atan2 tetrahedron 0 = nan)
  /\ (forall atan2, calculateVolumeUpToHeight atan2 tetrahedron 1 1 = nan).
Proof.
  split.
  { intros p q height Hp Hq Hh. split.
    - now apply crosses_in_plane.
    - now apply intersection_in_plane. }
  split; [reflexivity|]. split; [apply tetrahedron_base_area|].
  intros atan2.
  apply (volume_nan atan2 tetrahedron _ _ 1 1 0 eq_refl eq_refl eq_refl).
  - lia.
  - apply tetrahedron_base_area.
Qed.

Lemma horizontal_edge_reaches_the_volume_witness :
  crosses (new_Vector3 0 0 0) (new_Vector3 1 0 0) 0 = true
  /\ intersection (new_Vector3 0 0 0) (new_Vector3 1 0 0) 0 = new_Vector3 nan 0 nan.
Proof.
  apply (proj1 horizontal_edge_reaches_the_volume); reflexivity.
Defined.

(** C9, on the code: the estimate for the unit cube, up to its top and with
    the default 100 slices, is not a number, so it is not at or above 0: the
    bottom face lies in the first cutting plane. *)
Theorem cube_volume_is_not_a_number :
  forall atan2,
    calculateVolumeUpToHeight atan2 cube 1 100 = nan
    /\ (0 <=? calculateVolumeUpToHeight atan2 cube 1 100) = false.
Proof.
  intros atan2.
  assert (H : calculateVolumeUpToHeight atan2 cube 1 100 = nan).
  { apply (volume_nan atan2 cube _ _ 1 100 0 eq_refl eq_refl eq_refl).
    - lia.
    - apply cube_base_area. }
  rewrite H. split; reflexivity.
Qed.

(** * Monotonicity in the target elevation *)

Section Bipyramid.

Variable atan2 : float -> float -> float.





End Bipyramid.




(** * The sign of binary64 results *)

Section Sign.
Local Open Scope Z_scope.

Lemma digits2_pos_bounds (m : positive) :
  2 ^ (Zpos (digits2_pos m) - 1) <= Zpos m < 2 ^ Zpos (digits2_pos m).
Proof.
  induction m as [m IH | m IH |]; simpl digits2_pos.
  - rewrite Pos2Z.inj_succ. replace (Z.succ (Zpos (digits2_pos m)) - 1) with (Z.succ (Zpos (digits2_pos m) - 1)) by lia.
    rewrite !Z.pow_succ_r by lia. lia.
  - rewrite Pos2Z.inj_succ. replace (Z.succ (Zpos (digits2_pos m)) - 1) with (Z.succ (Zpos (digits2_pos m) - 1)) by lia.
    rewrite !Z.pow_succ_r by lia. lia.
  - simpl. lia.
Qed.

Lemma iter_xO (m d : positive) : Zpos (Pos.iter xO m d) = Zpos m * 2 ^ Zpos d.
Proof.
  rewrite <- Z.shiftl_mul_pow2 by lia. 
  revert m. induction d as [d IH | d IH |]; intros m; simpl Pos.iter.
  - rewrite Pos2Z.inj_xO, !IH. 
    rewrite !Z.shiftl_mul_pow2 by lia.
    replace (Zpos d~1) with (Zpos d + Zpos d + 1) by lia.
    rewrite !Z.pow_add_r by lia. lia.
  - rewrite !IH. rewrite !Z.shiftl_mul_pow2 by lia.
    replace (Zpos d~0) with (Zpos d + Zpos d) by lia.
    rewrite !Z.pow_add_r by lia. lia.
  - reflexivity.
Qed.

(** What a valid finite float says of its mantissa and exponent. *)
Lemma bounded_canonical (m : positive) (e : Z) :
  SpecFloat.bounded prec emax m e = true ->
  SpecFloat.emin prec emax <= e /\ Zpos (digits2_pos m) <= prec
  /\ (SpecFloat.emin prec emax < e -> Zpos (digits2_pos m) = prec).
Proof.
  unfold SpecFloat.bounded, canonical_mantissa, fexp, SpecFloat.emin, prec, emax. intros H.
  apply andb_true_iff in H. destruct H as [H _]. apply Z.eqb_eq in H.
  lia.
Qed.

Lemma shl_align_value (m : positive) (e e' : Z) :
  e' <= e -> Zpos (fst (shl_align m e e')) = Zpos m * 2 ^ (e - e').
Proof.
  intros H. unfold shl_align.
  destruct (e' - e) as [|d|d] eqn:E; simpl fst.
  - replace (e - e') with 0 by lia. lia.
  - lia.
  - rewrite iter_xO. f_equal. f_equal. lia.
Qed.


Lemma shr_1_mantissa (r : shr_record) :
  0 <= shr_m r -> shr_m (shr_1 r) = shr_m r / 2.
Proof.
  destruct r as [m r s]. simpl shr_m at 1 3. intros H. rewrite <- Z.div2_div.
  destruct m as [|[p|p|]|p]; try reflexivity; lia.
Qed.

Lemma iter_shr_1_mantissa (n : positive) (r : shr_record) :
  0 <= shr_m r -> shr_m (SpecFloat.iter_pos shr_1 n r) = shr_m r / 2 ^ Zpos n.
Proof.
  revert r. induction n as [n IH | n IH |]; intros r H; simpl SpecFloat.iter_pos.
  - assert (H1 : 0 <= shr_m (shr_1 r)) by (rewrite shr_1_mantissa by lia; apply Z.div_pos; lia).
    assert (H2 : 0 <= shr_m (SpecFloat.iter_pos shr_1 n (shr_1 r)))
      by (rewrite IH by lia; apply Z.div_pos; [lia | apply Z.pow_pos_nonneg; lia]).
    rewrite IH, IH, shr_1_mantissa by lia.
    rewrite !Z.div_div by (try apply Z.pow_pos_nonneg; lia).
    f_equal. replace (Zpos n~1) with (1 + Zpos n + Zpos n) by lia.
    rewrite !Z.pow_add_r by lia. lia.
  - assert (H2 : 0 <= shr_m (SpecFloat.iter_pos shr_1 n r))
      by (rewrite IH by lia; apply Z.div_pos; [lia | apply Z.pow_pos_nonneg; lia]).
    rewrite IH, IH by lia.
    rewrite !Z.div_div by (try apply Z.pow_pos_nonneg; lia).
    f_equal. replace (Zpos n~0) with (Zpos n + Zpos n) by lia.
    rewrite !Z.pow_add_r by lia. lia.
  - rewrite shr_1_mantissa by lia. reflexivity.
Qed.

Lemma shr_record_of_loc_mantissa (m : Z) (l : location) :
  shr_m (shr_record_of_loc m l) = m.
Proof. destruct l as [|[]]; reflexivity. Qed.

(** Shifting a positive mantissa down to its format keeps it positive. *)
Lemma shr_fexp_positive (p : positive) (e : Z) (l : location) :
  SpecFloat.emin prec emax <= e ->
  0 < shr_m (fst (shr_fexp prec emax (Zpos p) e l))
  /\ SpecFloat.emin prec emax <= snd (shr_fexp prec emax (Zpos p) e l).
Proof.
  intros He. unfold shr_fexp, shr.
  pose proof (digits2_pos_bounds p) as Hd.
  unfold Zdigits2. set (d := Zpos (digits2_pos p)) in *.
  destruct (fexp prec emax (d + e) - e) as [|n|n] eqn:En; simpl fst; simpl snd.
  - rewrite shr_record_of_loc_mantissa. lia.
  - rewrite iter_shr_1_mantissa by (rewrite shr_record_of_loc_mantissa; lia).
    rewrite shr_record_of_loc_mantissa.
    unfold fexp, SpecFloat.emin, prec, emax in *.
    split; [|lia].
    assert (Hn : Zpos n <= d - 1) by lia.
    assert (2 ^ Zpos n <= 2 ^ (d - 1)) by (apply Z.pow_le_mono_r; lia).
    assert (0 < 2 ^ Zpos n) by (apply Z.pow_pos_nonneg; lia).
    apply Z.div_str_pos. lia.
  - rewrite shr_record_of_loc_mantissa. lia.
Qed.

Lemma round_nearest_even_ge (m : Z) (l : location) : m <= round_nearest_even m l.
Proof. destruct l as [|[]]; simpl; try lia. destruct (Z.even m); lia. Qed.

Lemma SFltb_zero (f : spec_float) : SFltb f (S754_zero false) = negative_sf f.
Proof. destruct f as [[]|[]| |[] m e]; reflexivity. Qed.

Lemma binary_round_aux_sign (s : bool) (p : positive) (e : Z) (l : location) :
  SpecFloat.emin prec emax <= e ->
  negative_sf (binary_round_aux prec emax s (Zpos p) e l) = s.
Proof.
  intros He. unfold binary_round_aux.
  destruct (shr_fexp_positive p e l He) as [H1 H2].
  destruct (shr_fexp prec emax (Zpos p) e l) as [r1 e1]. simpl fst in *. simpl snd in *.
  pose proof (round_nearest_even_ge (shr_m r1) (loc_of_shr_record r1)) as H3.
  destruct (round_nearest_even (shr_m r1) (loc_of_shr_record r1)) as [|q|q]; try lia.
  destruct (shr_fexp_positive q e1 loc_Exact H2) as [H4 _].
  destruct (shr_fexp prec emax (Zpos q) e1 loc_Exact) as [r2 e2]. simpl fst in *.
  destruct (shr_m r2) as [|m2|m2]; try lia.
  destruct (e2 <=? emax - prec); destruct s; reflexivity.
Qed.

Lemma binary_round_sign (s : bool) (p : positive) (e : Z) :
  SpecFloat.emin prec emax <= e ->
  negative_sf (binary_round prec emax s p e) = s.
Proof.
  intros He. unfold binary_round.
  destruct (shl_align p e (fexp prec emax (Zpos (digits2_pos p) + e))) as [mz ez] eqn:E.
  apply binary_round_aux_sign.
  unfold shl_align in E.
  destruct (fexp prec emax (Zpos (digits2_pos p) + e) - e) eqn:E'; injection E as _ <-;
    unfold fexp, SpecFloat.emin, prec, emax in *; lia.
Qed.

Lemma binary_normalize_sign (D e : Z) :
  SpecFloat.emin prec emax <= e ->
  negative_sf (binary_normalize prec emax D e false) = (D <? 0).
Proof.
  intros He. destruct D as [|p|p]; simpl binary_normalize.
  - reflexivity.
  - now rewrite binary_round_sign.
  - now rewrite binary_round_sign.
Qed.


(** Two valid finite floats compare as their mantissas aligned on the lower
    of the two exponents. *)
Lemma aligned_order (mx : positive) (ex : Z) (my : positive) (ey : Z) :
  SpecFloat.bounded prec emax mx ex = true ->
  SpecFloat.bounded prec emax my ey = true ->
  ex < ey ->
  Zpos mx < Zpos my * 2 ^ (ey - ex).
Proof.
  intros Hx Hy Hlt.
  destruct (bounded_canonical _ _ Hx) as (Hex & Hdx & _).
  destruct (bounded_canonical _ _ Hy) as (_ & _ & Hdy).
  specialize (Hdy ltac:(lia)).
  pose proof (digits2_pos_bounds mx) as Bx. pose proof (digits2_pos_bounds my) as By.
  rewrite Hdy in By.
  assert (2 ^ Zpos (digits2_pos mx) <= 2 ^ prec) by (apply Z.pow_le_mono_r; lia).
  assert (2 ^ 1 <= 2 ^ (ey - ex)) by (apply Z.pow_le_mono_r; lia).
  assert (E : 2 ^ prec = 2 ^ (prec - 1) * 2 ^ 1)
    by (rewrite <- Z.pow_add_r by (unfold prec; lia); f_equal; lia).
  assert (0 < 2 ^ (prec - 1)) by (apply Z.pow_pos_nonneg; unfold prec; lia).
  nia.
Qed.

Lemma compare_aligned (sx : bool) (mx : positive) (ex : Z) (sy : bool) (my : positive)
    (ey : Z) :
  SpecFloat.bounded prec emax mx ex = true ->
  SpecFloat.bounded prec emax my ey = true ->
  (cond_Zopp sx (Zpos (fst (shl_align mx ex (Z.min ex ey))))
   - cond_Zopp sy (Zpos (fst (shl_align my ey (Z.min ex ey)))) <? 0)
  = SFltb (S754_finite sx mx ex) (S754_finite sy my ey).
Proof.
  intros Hx Hy.
  rewrite !shl_align_value by lia.
  unfold SFltb, SFcompare. change (Pos.compare_cont Eq) with Pos.compare.
  destruct (Z.compare_spec ex ey) as [E | E | E].
  - subst ey. rewrite Z.min_id, Z.sub_diag, !Z.mul_1_r.
    destruct (Pos.compare_spec mx my) as [E' | E' | E'];
      destruct sx, sy; unfold cond_Zopp, CompOpp; cbv iota; try subst; zltb.
  - pose proof (aligned_order _ _ _ _ Hx Hy E) as H.
    rewrite Z.min_l by lia. rewrite Z.sub_diag, Z.mul_1_r.
    assert (0 < Zpos my * 2 ^ (ey - ex)) by lia.
    destruct sx, sy; unfold cond_Zopp; cbv iota; zltb.
  - pose proof (aligned_order _ _ _ _ Hy Hx E) as H.
    rewrite Z.min_r by lia. rewrite Z.sub_diag, Z.mul_1_r.
    assert (0 < Zpos mx * 2 ^ (ex - ey)) by lia.
    destruct sx, sy; unfold cond_Zopp; cbv iota; zltb.
Qed.

(** The sign of a difference is the order of its terms. *)
Lemma SFsub_negative (x y : spec_float) :
  valid_binary x = true -> valid_binary y = true ->
  negative_sf (SFsub prec emax x y) = SFltb x y.
Proof.
  intros Hx Hy.
  destruct x as [sx|sx| |sx mx ex], y as [sy|sy| |sy my ey];
    try reflexivity;
    try (destruct sx; reflexivity); try (destruct sy; reflexivity);
    try (destruct sx, sy; reflexivity).
  unfold SFsub.
  destruct (bounded_canonical _ _ Hx) as (Hex & _).
  destruct (bounded_canonical _ _ Hy) as (Hey & _).
  rewrite binary_normalize_sign by lia.
  now apply compare_aligned.
Qed.

End Sign.

Lemma sub_ltb_zero (a b : float) : (a - b <? 0) = (a <? b).
Proof.
  rewrite !FloatAxioms.ltb_spec, sub_spec.
  change (Prim2SF 0) with (S754_zero false).
  rewrite SFltb_zero. apply SFsub_negative; apply Prim2SF_valid.
Qed.

Section NonNegative.

Lemma binary_round_aux_nonneg (m e : Z) (l : location) :
  negative_sf (binary_round_aux prec emax false m e l) = false.
Proof.
  unfold binary_round_aux.
  destruct (shr_fexp prec emax m e l) as [r1 e1].
  destruct (shr_fexp prec emax _ e1 loc_Exact) as [r2 e2].
  destruct (shr_m r2); [reflexivity | | reflexivity].
  destruct (e2 <=? emax - prec)%Z; reflexivity.
Qed.

Lemma binary_normalize_nonneg (D e : Z) :
  (0 <= D)%Z -> negative_sf (binary_normalize prec emax D e false) = false.
Proof.
  intros H. destruct D as [|p|p]; [reflexivity | | lia].
  unfold binary_normalize, binary_round.
  destruct (shl_align p e _) as [mz ez]. apply binary_round_aux_nonneg.
Qed.

Lemma SFadd_nonneg (x y : spec_float) :
  negative_sf x = false -> negative_sf y = false ->
  negative_sf (SFadd prec emax x y) = false.
Proof.
  destruct x as [[]|[]| |[] mx ex], y as [[]|[]| |[] my ey];
    try discriminate; try reflexivity.
  intros _ _. unfold SFadd. apply binary_normalize_nonneg.
  unfold cond_Zopp. lia.
Qed.

Lemma SFmul_nonneg (x y : spec_float) :
  negative_sf x = false -> negative_sf y = false ->
  negative_sf (SFmul prec emax x y) = false.
Proof.
  destruct x as [[]|[]| |[] mx ex], y as [[]|[]| |[] my ey];
    try discriminate; try reflexivity.
  intros _ _. apply binary_round_aux_nonneg.
Qed.

Lemma SFdiv_nonneg (x y : spec_float) :
  negative_sf x = false -> positive_sf y = true ->
  negative_sf (SFdiv prec emax x y) = false.
Proof.
  destruct x as [[]|[]| |[] mx ex], y as [[]|[]| |[] my ey];
    try discriminate; try reflexivity.
  intros _ _. unfold SFdiv.
  destruct (SFdiv_core_binary prec emax (Zpos mx) ex (Zpos my) ey) as [[mz ez] lz].
  apply binary_round_aux_nonneg.
Qed.

Lemma binary_round_positive (p : positive) (e : Z) :
  positive_sf (binary_round prec emax false p e) = true.
Proof.
  unfold binary_round. destruct (shl_align p e _) as [mz ez].
  unfold binary_round_aux.
  destruct (shr_fexp prec emax (Zpos mz) ez loc_Exact) as [r1 e1].
  destruct (shr_fexp prec emax _ e1 loc_Exact) as [r2 e2].
  destruct (shr_m r2); [reflexivity | | reflexivity].
  destruct (e2 <=? emax - prec)%Z; reflexivity.
Qed.

Lemma binary_normalize_positive (D e : Z) :
  (0 <= D)%Z -> positive_sf (binary_normalize prec emax D e false) = true.
Proof.
  intros H. destruct D as [|p|p]; [reflexivity | | lia].
  apply binary_round_positive.
Qed.

End NonNegative.

Lemma ltb_zero_spec (a : float) : (a <? 0) = negative_sf (Prim2SF a).
Proof.
  rewrite FloatAxioms.ltb_spec. change (Prim2SF 0) with (S754_zero false).
  apply SFltb_zero.
Qed.

Lemma add_nonneg (a b : float) :
  (a <? 0) = false -> (b <? 0) = false -> (a + b <? 0) = false.
Proof. rewrite !ltb_zero_spec, add_spec. apply SFadd_nonneg. Qed.

Lemma mul_nonneg (a b : float) :
  (a <? 0) = false -> (b <? 0) = false -> (a * b <? 0) = false.
Proof. rewrite !ltb_zero_spec, mul_spec. apply SFmul_nonneg. Qed.

Lemma div_nonneg (a b : float) :
  (a <? 0) = false -> positive_sf (Prim2SF b) = true -> (a / b <? 0) = false.
Proof. rewrite !ltb_zero_spec, div_spec. apply SFdiv_nonneg. Qed.

Lemma abs_nonneg (a : float) : (abs a <? 0) = false.
Proof.
  rewrite ltb_zero_spec, abs_spec. destruct (Prim2SF a) as [[]|[]| |[] m e]; reflexivity.
Qed.

Lemma of_uint63_positive (n : PrimInt63.int) : positive_sf (Prim2SF (of_uint63 n)) = true.
Proof.
  rewrite of_uint63_spec. apply binary_normalize_positive.
  apply Uint63.to_Z_bounded.
Qed.

Lemma ldexp_positive (f : float) (e : Z) :
  positive_sf (Prim2SF f) = true -> positive_sf (Prim2SF (Z.ldexp f e)) = true.
Proof.
  rewrite Z_ldexp_spec. destruct (Prim2SF f) as [[]|[]| |[] m e']; try discriminate;
    try reflexivity.
  intros _. apply binary_round_positive.
Qed.

Lemma SF2Prim_positive (x : spec_float) :
  positive_sf x = true -> positive_sf (Prim2SF (SF2Prim x)) = true.
Proof.
  destruct x as [[]|[]| |[] m e]; try discriminate; try reflexivity.
  intros _. unfold SF2Prim. apply ldexp_positive, of_uint63_positive.
Qed.

Lemma Z2F_positive (n : Z) : (0 <= n)%Z -> positive_sf (Prim2SF (Z2F n)) = true.
Proof.
  intros H. unfold Z2F. apply SF2Prim_positive. now apply binary_normalize_positive.
Qed.
(** * Whole numbers in binary64 *)

Section Whole.
Local Open Scope Z_scope.

Lemma pow2_pos (k : Z) : 0 <= k -> 0 < 2 ^ k.
Proof. intros H. apply Z.pow_pos_nonneg; lia. Qed.

Lemma digits2_pos_unique (m : positive) (d : Z) :
  2 ^ (d - 1) <= Zpos m < 2 ^ d -> 0 < d -> Zpos (digits2_pos m) = d.
Proof.
  intros [H1 H2] Hd. pose proof (digits2_pos_bounds m) as [B1 B2].
  assert (Zpos (digits2_pos m) - 1 < d).
  { apply (Z.pow_lt_mono_r_iff 2); lia. }
  assert (d - 1 < Zpos (digits2_pos m)).
  { apply (Z.pow_lt_mono_r_iff 2); lia. }
  lia.
Qed.

Lemma digits2_pos_shift (p m : positive) (k : Z) :
  0 <= k -> Zpos m = Zpos p * 2 ^ k ->
  Zpos (digits2_pos m) = Zpos (digits2_pos p) + k.
Proof.
  intros Hk Hm. pose proof (digits2_pos_bounds p) as [B1 B2].
  pose proof (pow2_pos k Hk).
  apply digits2_pos_unique; [|lia]. rewrite Hm.
  replace (Zpos (digits2_pos p) + k - 1) with (Zpos (digits2_pos p) - 1 + k) by lia.
  rewrite !Z.pow_add_r by lia. nia.
Qed.

Lemma shr_1_even (M : Z) :
  0 <= M ->
  shr_1 {| shr_m := 2 * M; shr_r := false; shr_s := false |}
  = {| shr_m := M; shr_r := false; shr_s := false |}.
Proof. destruct M as [|p|p]; intros H; reflexivity. Qed.

Lemma iter_shr_1_exact (q : positive) (M : Z) :
  0 <= M ->
  SpecFloat.iter_pos shr_1 q {| shr_m := M * 2 ^ Zpos q; shr_r := false; shr_s := false |}
  = {| shr_m := M; shr_r := false; shr_s := false |}.
Proof.
  revert M. induction q as [q IH | q IH |]; intros M HM; cbn [SpecFloat.iter_pos].
  - replace (M * 2 ^ Zpos q~1) with (2 * ((M * 2 ^ Zpos q) * 2 ^ Zpos q)).
    + rewrite shr_1_even, IH, IH; auto.
      * pose proof (pow2_pos (Zpos q)); nia.
      * pose proof (pow2_pos (Zpos q)); nia.
    + replace (Zpos q~1) with (1 + Zpos q + Zpos q) by lia.
      rewrite !Z.pow_add_r by lia. lia.
  - replace (M * 2 ^ Zpos q~0) with ((M * 2 ^ Zpos q) * 2 ^ Zpos q).
    + rewrite IH, IH; auto. pose proof (pow2_pos (Zpos q)); nia.
    + replace (Zpos q~0) with (Zpos q + Zpos q) by lia.
      rewrite !Z.pow_add_r by lia. lia.
  - replace (M * 2 ^ 1) with (2 * M) by lia. now apply shr_1_even.
Qed.

(** Rounding a whole number below 2^53 that is given with spare low bits:
    nothing is lost. *)
Lemma binary_round_aux_whole (s : bool) (p m : positive) (e : Z) :
  Zpos (digits2_pos p) <= prec ->
  e <= Zpos (digits2_pos p) - prec ->
  Zpos m = Zpos p * 2 ^ (- e) ->
  binary_round_aux prec emax s (Zpos m) e loc_Exact
  = S754_finite s (Z.to_pos (Zpos p * 2 ^ (- (Zpos (digits2_pos p) - prec))))
      (Zpos (digits2_pos p) - prec).
Proof.
  intros Hd He Hm.
  set (d := Zpos (digits2_pos p)) in *. set (f := d - prec).
  assert (Hd0 : 0 < d) by (unfold d; lia).
  assert (Hf : f <= 0) by (unfold f; lia).
  assert (Hdm : Zpos (digits2_pos m) = d - e).
  { unfold d. rewrite (digits2_pos_shift p m (- e)); [lia | unfold f in *; lia | exact Hm]. }
  assert (HM : 0 < Zpos p * 2 ^ (- f)).
  { pose proof (pow2_pos (- f)). nia. }
  assert (Hfirst : shr_fexp prec emax (Zpos m) e loc_Exact
                   = ({| shr_m := Zpos p * 2 ^ (- f); shr_r := false; shr_s := false |}, f)).
  { unfold shr_fexp. simpl Zdigits2. rewrite Hdm.
    replace (fexp prec emax (d - e + e)) with f
      by (unfold fexp, SpecFloat.emin, f, prec, emax in *; lia).
    simpl shr_record_of_loc. unfold shr.
    destruct (f - e) as [|q|q] eqn:Eq; try lia.
    - replace e with f in * by lia. now rewrite Hm.
    - rewrite Hm. replace (- e) with (- f + Zpos q) by lia.
      rewrite Z.pow_add_r by lia. rewrite Z.mul_assoc.
      rewrite iter_shr_1_exact by lia. f_equal. lia. }
  unfold binary_round_aux. rewrite Hfirst.
  cbn [loc_of_shr_record shr_m round_nearest_even].
  set (q := Z.to_pos (Zpos p * 2 ^ (- f))).
  assert (Hq : Zpos p * 2 ^ (- f) = Zpos q) by (unfold q; now rewrite Z2Pos.id).
  rewrite Hq.
  assert (Hdz : Zpos (digits2_pos q) = d - f).
  { unfold d. rewrite (digits2_pos_shift p q (- f)); [lia | lia | now rewrite Hq]. }
  unfold shr_fexp. cbn [Zdigits2]. rewrite Hdz.
  replace (fexp prec emax (d - f + f)) with f
    by (unfold fexp, SpecFloat.emin, f, prec, emax in *; lia).
  rewrite Z.sub_diag. cbn [shr shr_record_of_loc shr_m].
  replace (f <=? emax - prec) with true
    by (symmetry; apply Z.leb_le; unfold emax, prec in *; lia).
  reflexivity.
Qed.

Lemma binary_round_whole (s : bool) (p m : positive) (e : Z) :
  Zpos (digits2_pos p) <= prec ->
  e <= 0 ->
  Zpos m = Zpos p * 2 ^ (- e) ->
  binary_round prec emax s m e
  = S754_finite s (Z.to_pos (Zpos p * 2 ^ (- (Zpos (digits2_pos p) - prec))))
      (Zpos (digits2_pos p) - prec).
Proof.
  intros Hd He Hm.
  set (d := Zpos (digits2_pos p)) in *. set (f := d - prec).
  assert (Hd0 : 0 < d) by (unfold d; lia).
  assert (Hdm : Zpos (digits2_pos m) = d - e).
  { unfold d. rewrite (digits2_pos_shift p m (- e)); [lia | lia | exact Hm]. }
  unfold binary_round. rewrite Hdm.
  replace (fexp prec emax (d - e + e)) with f
    by (unfold fexp, SpecFloat.emin, f, prec, emax in *; lia).
  unfold shl_align. destruct (f - e) as [|k|k] eqn:Ek.
  - apply binary_round_aux_whole; [exact Hd | fold d; fold f; lia | exact Hm].
  - apply binary_round_aux_whole; [exact Hd | fold d; fold f; lia | exact Hm].
  - apply binary_round_aux_whole; [exact Hd | fold d; fold f; lia |].
    rewrite iter_xO, Hm. rewrite <- Z.mul_assoc, <- Z.pow_add_r by lia.
    f_equal. f_equal. lia.
Qed.

Lemma whole_sf_valid (n : Z) :
  Zdigits2 n <= prec -> valid_binary (whole_sf n) = true.
Proof.
  destruct n as [|p|p]; [reflexivity | |]; cbn [Zdigits2 whole_sf valid_binary]; intros Hd.
  - set (d := Zpos (digits2_pos p)) in *. set (f := d - prec).
    unfold SpecFloat.bounded, canonical_mantissa.
    rewrite (digits2_pos_shift p _ (- f)).
    + apply andb_true_iff. split; [apply Z.eqb_eq | apply Z.leb_le];
        unfold fexp, SpecFloat.emin, f, d, prec, emax in *; lia.
    + unfold f; lia.
    + rewrite Z2Pos.id; [reflexivity|]. pose proof (pow2_pos (- f)). unfold f in *. nia.
  - set (d := Zpos (digits2_pos p)) in *. set (f := d - prec).
    unfold SpecFloat.bounded, canonical_mantissa.
    rewrite (digits2_pos_shift p _ (- f)).
    + apply andb_true_iff. split; [apply Z.eqb_eq | apply Z.leb_le];
        unfold fexp, SpecFloat.emin, f, d, prec, emax in *; lia.
    + unfold f; lia.
    + rewrite Z2Pos.id; [reflexivity|]. pose proof (pow2_pos (- f)). unfold f in *. nia.
Qed.

Lemma normalize_whole (n : Z) :
  Zdigits2 n <= prec -> binary_normalize prec emax n 0 false = whole_sf n.
Proof.
  destruct n as [|p|p]; [reflexivity | |]; cbn [Zdigits2 whole_sf binary_normalize];
    intros Hd; apply binary_round_whole; try assumption; try lia.
Qed.

Lemma Z2F_whole (n : Z) :
  Zdigits2 n <= prec -> Prim2SF (Z2F n) = whole_sf n.
Proof.
  intros Hd. unfold Z2F. rewrite normalize_whole by exact Hd.
  apply Prim2SF_SF2Prim. now apply whole_sf_valid.
Qed.

End Whole.

Section WholeArith.
Local Open Scope Z_scope.

Lemma Zdigits2_small (n : Z) : Z.abs n < 2 ^ prec -> Zdigits2 n <= prec.
Proof.
  destruct n as [|p|p]; cbn [Zdigits2 Z.abs]; intros H; [unfold prec; lia | |];
    pose proof (digits2_pos_bounds p) as [B1 _];
    assert (Zpos (digits2_pos p) - 1 < prec)
      by (apply (Z.pow_lt_mono_r_iff 2); unfold prec in *; lia); lia.
Qed.

Lemma Zdigits2_mul (p q : positive) :
  Zpos (digits2_pos p) + Zpos (digits2_pos q) - 1 <= Zpos (digits2_pos (p * q)).
Proof.
  pose proof (digits2_pos_bounds p) as [P1 P2].
  pose proof (digits2_pos_bounds q) as [Q1 Q2].
  pose proof (digits2_pos_bounds (p * q)) as [R1 R2].
  assert (H : 2 ^ (Zpos (digits2_pos p) - 1 + (Zpos (digits2_pos q) - 1))
              <= Zpos (p * q)).
  { rewrite Z.pow_add_r by lia. rewrite Pos2Z.inj_mul.
    pose proof (pow2_pos (Zpos (digits2_pos p) - 1)).
    pose proof (pow2_pos (Zpos (digits2_pos q) - 1)). nia. }
  assert (Zpos (digits2_pos p) - 1 + (Zpos (digits2_pos q) - 1)
          < Zpos (digits2_pos (p * q)))
    by (apply (Z.pow_lt_mono_r_iff 2); lia).
  lia.
Qed.

Lemma whole_sf_mantissa (p : positive) :
  Zpos (digits2_pos p) <= prec ->
  Zpos (Z.to_pos (Zpos p * 2 ^ (- (Zpos (digits2_pos p) - prec))))
  = Zpos p * 2 ^ (- (Zpos (digits2_pos p) - prec)).
Proof.
  intros H. apply Z2Pos.id.
  pose proof (pow2_pos (- (Zpos (digits2_pos p) - prec))). nia.
Qed.

Lemma SFmul_whole (a b : Z) :
  0 <= a -> 0 <= b -> a * b < 2 ^ prec ->
  SFmul prec emax (whole_sf a) (whole_sf b) = whole_sf (a * b).
Proof.
  intros Ha Hb Hab.
  destruct a as [|p|p]; [destruct b; try reflexivity; lia | | lia].
  destruct b as [|q|q]; [reflexivity | | lia].
  assert (Hd : Zpos (digits2_pos (p * q)) <= prec)
    by (apply (Zdigits2_small (Zpos (p * q))); cbn [Z.abs]; exact Hab).
  pose proof (Zdigits2_mul p q) as Hm.
  pose proof (digits2_pos_bounds p) as [_ P2].
  pose proof (digits2_pos_bounds q) as [_ Q2].
  assert (Hp : Zpos (digits2_pos p) <= prec).
  { apply (Zdigits2_small (Zpos p)). cbn [Z.abs]. nia. }
  assert (Hq : Zpos (digits2_pos q) <= prec).
  { apply (Zdigits2_small (Zpos q)). cbn [Z.abs]. nia. }
  change (Zpos p * Zpos q) with (Zpos (p * q)).
  cbn [whole_sf Zdigits2 SFmul xorb].
  apply binary_round_aux_whole.
  - exact Hd.
  - lia.
  - rewrite Pos2Z.inj_mul, !whole_sf_mantissa by assumption.
    rewrite Pos2Z.inj_mul.
    replace (- (Zpos (digits2_pos p) - prec + (Zpos (digits2_pos q) - prec)))
      with (- (Zpos (digits2_pos p) - prec) + - (Zpos (digits2_pos q) - prec)) by lia.
    rewrite Z.pow_add_r by lia. ring.
Qed.

(** A whole number given on a lower exponent rounds to itself. *)
Lemma normalize_scaled (n e : Z) :
  e <= 0 -> Zdigits2 n <= prec ->
  binary_normalize prec emax (n * 2 ^ (- e)) e false = whole_sf n.
Proof.
  intros He Hd. pose proof (pow2_pos (- e) ltac:(lia)) as Hp.
  destruct n as [|p|p]; [reflexivity | |].
  - destruct (Zpos p * 2 ^ (- e)) as [|m|m] eqn:E; try nia.
    cbn [binary_normalize whole_sf Zdigits2].
    apply binary_round_whole; [exact Hd | exact He | now symmetry].
  - destruct (Zneg p * 2 ^ (- e)) as [|m|m] eqn:E; try nia.
    cbn [binary_normalize whole_sf Zdigits2].
    apply binary_round_whole; [exact Hd | exact He |].
    rewrite <- Pos2Z.opp_pos in E. rewrite <- (Pos2Z.opp_pos m) in E.
    rewrite Z.mul_opp_l in E. lia.
Qed.

(** The sign, mantissa and exponent of the float of a whole number. *)
Lemma whole_sf_finite (n : Z) :
  n <> 0 -> Zdigits2 n <= prec ->
  exists m : positive,
    whole_sf n = S754_finite (n <? 0) m (Zdigits2 n - prec)
    /\ cond_Zopp (n <? 0) (Zpos m) = n * 2 ^ (- (Zdigits2 n - prec)).
Proof.
  intros Hn Hd. destruct n as [|p|p]; [contradiction | |]; cbn [Zdigits2] in *.
  - eexists. split; [reflexivity|]. cbn [cond_Zopp Z.ltb Z.compare].
    now apply whole_sf_mantissa.
  - eexists. split; [reflexivity|]. cbn [cond_Zopp Z.ltb Z.compare].
    rewrite whole_sf_mantissa by assumption.
    rewrite <- Z.mul_opp_l. reflexivity.
Qed.

Lemma aligned_whole (s : bool) (m : positive) (f e0 n : Z) :
  e0 <= f -> f <= 0 ->
  cond_Zopp s (Zpos m) = n * 2 ^ (- f) ->
  cond_Zopp s (Zpos (fst (shl_align m f e0))) = n * 2 ^ (- e0).
Proof.
  intros H0 Hf Hm. rewrite shl_align_value by exact H0.
  replace (- e0) with (- f + (f - e0)) by lia.
  rewrite Z.pow_add_r by lia. rewrite Z.mul_assoc, <- Hm.
  destruct s; cbn [cond_Zopp]; lia.
Qed.

Lemma SFadd_whole (a b : Z) :
  Zdigits2 a <= prec -> Zdigits2 b <= prec -> Zdigits2 (a + b) <= prec ->
  SFadd prec emax (whole_sf a) (whole_sf b) = whole_sf (a + b).
Proof.
  intros Ha Hb Hab.
  destruct (Z.eq_dec a 0) as [-> | Na].
  { destruct b; reflexivity. }
  destruct (Z.eq_dec b 0) as [-> | Nb].
  { rewrite Z.add_0_r. destruct a; try contradiction; reflexivity. }
  destruct (whole_sf_finite a Na Ha) as (ma & Ea & Va).
  destruct (whole_sf_finite b Nb Hb) as (mb & Eb & Vb).
  rewrite Ea, Eb. cbn [SFadd].
  assert (Fa : Zdigits2 a - prec <= 0) by lia.
  assert (Fb : Zdigits2 b - prec <= 0) by lia.
  rewrite (aligned_whole _ _ _ _ a (Z.le_min_l _ _) Fa Va).
  rewrite (aligned_whole _ _ _ _ b (Z.le_min_r _ _) Fb Vb).
  rewrite <- Z.mul_add_distr_r.
  apply normalize_scaled; [lia | exact Hab].
Qed.

Lemma SFsub_whole (a b : Z) :
  Zdigits2 a <= prec -> Zdigits2 b <= prec -> Zdigits2 (a - b) <= prec ->
  SFsub prec emax (whole_sf a) (whole_sf b) = whole_sf (a - b).
Proof.
  intros Ha Hb Hab.
  destruct (Z.eq_dec b 0) as [-> | Nb].
  { rewrite Z.sub_0_r. destruct a; reflexivity. }
  destruct (Z.eq_dec a 0) as [-> | Na].
  { destruct b; try contradiction; reflexivity. }
  destruct (whole_sf_finite a Na Ha) as (ma & Ea & Va).
  destruct (whole_sf_finite b Nb Hb) as (mb & Eb & Vb).
  rewrite Ea, Eb. cbn [SFsub].
  assert (Fa : Zdigits2 a - prec <= 0) by lia.
  assert (Fb : Zdigits2 b - prec <= 0) by lia.
  rewrite (aligned_whole _ _ _ _ a (Z.le_min_l _ _) Fa Va).
  rewrite (aligned_whole _ _ _ _ b (Z.le_min_r _ _) Fb Vb).
  rewrite <- Z.mul_sub_distr_r.
  apply normalize_scaled; [lia | exact Hab].
Qed.

End WholeArith.

(** Whole numbers below 2^53 in magnitude are computed with exactly. *)
Section WholeFloats.
Local Open Scope Z_scope.

Lemma Z2F_small (n : Z) : Z.abs n < 2 ^ 53 -> Prim2SF (Z2F n) = whole_sf n.
Proof. intros H. apply Z2F_whole. now apply Zdigits2_small. Qed.

Lemma mul_whole (a b : Z) :
  0 <= a < 2 ^ 53 -> 0 <= b < 2 ^ 53 -> a * b < 2 ^ 53 ->
  (Z2F a * Z2F b)%float = Z2F (a * b).
Proof.
  intros Ha Hb Hab. apply Prim2SF_inj.
  rewrite mul_spec, !Z2F_small by (try apply Z.abs_lt; nia).
  apply SFmul_whole; [lia | lia | exact Hab].
Qed.

Lemma add_whole (a b : Z) :
  Z.abs a < 2 ^ 53 -> Z.abs b < 2 ^ 53 -> Z.abs (a + b) < 2 ^ 53 ->
  (Z2F a + Z2F b)%float = Z2F (a + b).
Proof.
  intros Ha Hb Hab. apply Prim2SF_inj.
  rewrite add_spec, !Z2F_small by assumption.
  apply SFadd_whole; now apply Zdigits2_small.
Qed.

Lemma sub_whole (a b : Z) :
  Z.abs a < 2 ^ 53 -> Z.abs b < 2 ^ 53 -> Z.abs (a - b) < 2 ^ 53 ->
  (Z2F a - Z2F b)%float = Z2F (a - b).
Proof.
  intros Ha Hb Hab. apply Prim2SF_inj.
  rewrite sub_spec, !Z2F_small by assumption.
  apply SFsub_whole; now apply Zdigits2_small.
Qed.

Lemma combine_map {A B : Type} (g : A -> B) (l l' : list A) :
  combine (map g l) (map g l') = map (fun e => (g (fst e), g (snd e))) (combine l l').
Proof.
  revert l'. induction l as [|a l IH]; intros [|a' l']; simpl; try reflexivity.
  now rewrite IH.
Qed.

Lemma ringEdges_map {A B : Type} (g : A -> B) (l : list A) :
  ringEdges (map g l) = map (fun e => (g (fst e), g (snd e))) (ringEdges l).
Proof.
  unfold ringEdges. rewrite <- combine_map. f_equal.
  rewrite map_app, firstn_map. f_equal. destruct l; reflexivity.
Qed.

Lemma ringEdges_In {A : Type} (l : list A) (a b : A) :
  In (a, b) (ringEdges l) -> In a l /\ In b l.
Proof.
  unfold ringEdges. intros H. split.
  - now apply in_combine_l in H.
  - apply in_combine_r in H. apply in_app_or in H. destruct H as [H | H].
    + destruct l; [destruct H | now right].
    + destruct l as [|c l]; [destruct H|]. simpl in H. destruct H as [<- | []]. now left.
Qed.

(** The accumulation over edges with whole coordinates, as long as no
    product and no running sum reaches 2^53. *)
Lemma shoelaceOver_whole (B : Z) (edges : list ((Z * Z) * (Z * Z))) (area : Z) :
  Forall (fun e => within B (fst e) /\ within B (snd e)) edges ->
  Z.abs area + 2 * Z.of_nat (length edges) * (B * B) < 2 ^ 53 ->
  fold_left (fun area e =>
               (area + fst (fst e) * snd (snd e) - fst (snd e) * snd (fst e))%float)
            (map (fun e => (in_plane (wholePoint (fst e)), in_plane (wholePoint (snd e))))
                 edges)
            (Z2F area)
  = Z2F (fold_left (fun area e =>
                      area + fst (fst e) * snd (snd e) - fst (snd e) * snd (fst e))
                   edges area).
Proof.
  revert area. induction edges as [|[[xi zi] [xj zj]] edges IH]; intros area Hall Hb.
  - reflexivity.
  - inversion Hall as [|? ? [[Hxi Hzi] [Hxj Hzj]] Hall']; subst.
    cbn [fst snd] in *.
    change (length (((xi, zi), (xj, zj)) :: edges)) with (S (length edges)) in Hb.
    rewrite Nat2Z.inj_succ in Hb.
    assert (H1 : 0 <= xi * zj <= B * B) by nia.
    assert (H2 : 0 <= xj * zi <= B * B) by nia.
    assert (H0 : 0 <= 2 * Z.of_nat (length edges) * (B * B)) by nia.
    cbn [map fold_left in_plane wholePoint x z fst snd].
    rewrite (mul_whole xi zj) by nia.
    rewrite (mul_whole xj zi) by nia.
    rewrite (add_whole area (xi * zj)) by lia.
    rewrite (sub_whole (area + xi * zj) (xj * zi)) by lia.
    apply IH; [exact Hall' | lia].
Qed.

Lemma shoelace_whole (B : Z) (ring : list (Z * Z)) :
  Forall (within B) ring ->
  2 * Z.of_nat (length ring) * (B * B) < 2 ^ 53 ->
  shoelace PrimFloat.add PrimFloat.sub PrimFloat.mul 0%float
    (map in_plane (map wholePoint ring))
  = Z2F (shoelaceZ ring).
Proof.
  intros Hall Hb. unfold shoelaceZ. rewrite !shoelace_ringEdges.
  rewrite map_map, ringEdges_map. unfold shoelaceOver.
  apply (shoelaceOver_whole B (ringEdges ring) 0).
  - rewrite Forall_forall in *. intros [a b] Hab.
    apply ringEdges_In in Hab. destruct Hab as [Ha Hb']. split; now apply Hall.
  - unfold ringEdges. rewrite length_combine, ringEdges_length, Nat.min_id.
    cbn [Z.abs]. lia.
Qed.

Lemma shoelace_IZR (ring : list (Z * Z)) :
  IZR (shoelaceZ ring)
  = shoelace Rplus Rminus Rmult 0%R (map (fun p => (IZR (fst p), IZR (snd p))) ring).
Proof.
  unfold shoelaceZ. rewrite !shoelace_ringEdges, ringEdges_map. unfold shoelaceOver.
  change 0%R with (IZR 0). generalize 0 as area. generalize (ringEdges ring) as edges.
  induction edges as [|e edges IH]; intros area; [reflexivity|].
  cbn [map fold_left fst snd]. rewrite IH. f_equal.
  now rewrite minus_IZR, plus_IZR, !mult_IZR.
Qed.

Lemma shoelaceZ_rotate (front back : list (Z * Z)) :
  shoelaceZ (back ++ front) = shoelaceZ (front ++ back).
Proof.
  apply eq_IZR. rewrite !shoelace_IZR, !map_app, !shoelace_exact.
  apply shoelaceSumR_rotate.
Qed.

End WholeFloats.

(** Rings with whole coordinates that are small enough: the area in the
    arithmetic of the code is the exact one, from every starting vertex. *)
Lemma calculatePolygonArea_whole (B : Z) (ring : list (Z * Z)) :
  Forall (within B) ring ->
  (2 * Z.of_nat (length ring) * (B * B) < 2 ^ 53)%Z ->
  (3 <= length ring)%nat ->
  calculatePolygonArea (map wholePoint ring) = Math.abs (Z2F (shoelaceZ ring)) / 2.
Proof.
  intros Hall Hb Hlen. unfold calculatePolygonArea.
  rewrite length_map. apply Nat.ltb_ge in Hlen. rewrite Hlen.
  now rewrite (shoelace_whole B).
Qed.

Lemma calculatePolygonArea_whole_rotate (B : Z) (front back : list (Z * Z)) :
  Forall (within B) (front ++ back) ->
  (2 * Z.of_nat (length (front ++ back)) * (B * B) < 2 ^ 53)%Z ->
  calculatePolygonArea (map wholePoint (back ++ front))
  = calculatePolygonArea (map wholePoint (front ++ back)).
Proof.
  intros Hall Hb.
  assert (Hall' : Forall (within B) (back ++ front)).
  { rewrite Forall_app in *. tauto. }
  assert (Hlen : length (back ++ front) = length (front ++ back)).
  { rewrite !length_app. lia. }
  destruct (Nat.lt_ge_cases (length (front ++ back)) 3) as [Hs | Hs].
  - unfold calculatePolygonArea. rewrite !length_map, Hlen.
    apply Nat.ltb_lt in Hs. now rewrite Hs.
  - rewrite (calculatePolygonArea_whole B (back ++ front)) by (auto; lia).
    rewrite (calculatePolygonArea_whole B (front ++ back)) by auto.
    now rewrite shoelaceZ_rotate.
Qed.

(** C8, as the code does it: fewer than 3 points give 0; 3 or more points
    give half the absolute value of the shoelace accumulation over the
    consecutive pairs of the ring, the last point paired with the first,
    started at the first point.  Read over the real numbers, that
    accumulation is the sum of [x_i * z_(i+1) - x_(i+1) * z_i] and does not
    depend on the vertex the ring starts from.  In the arithmetic of the
    code the same holds for a ring of [n] points with whole coordinates
    between 0 and [B] when [2 * n * B * B < 2^53]: no product and no running
    sum is rounded, the area is that of the exact sum, and it is the same
    from every starting vertex. *)
Theorem calculatePolygonArea_shoelace :
  (forall points : list Vector3,
     (length points < 3)%nat -> calculatePolygonArea points = 0)
  /\ (forall points : list Vector3,
        (3 <= length points)%nat ->
        calculatePolygonArea points
        = Math.abs (shoelaceOver PrimFloat.add PrimFloat.sub PrimFloat.mul 0
                      (ringEdges (map in_plane points))) / 2)
  /\ (forall ring : list (R * R),
        shoelace Rplus Rminus Rmult 0%R ring = shoelaceSumR ring)
  /\ (forall front back : list (R * R),
        shoelace Rplus Rminus Rmult 0%R (back ++ front)
        = shoelace Rplus Rminus Rmult 0%R (front ++ back))
  /\ (forall (B : Z) (ring : list (Z * Z)),
        Forall (within B) ring ->
        (2 * Z.of_nat (length ring) * (B * B) < 2 ^ 53)%Z ->
        (3 <= length ring)%nat ->
        calculatePolygonArea (map wholePoint ring)
        = Math.abs (Z2F (shoelaceZ ring)) / 2)
  /\ (forall (B : Z) (front back : list (Z * Z)),
        Forall (within B) (front ++ back) ->
        (2 * Z.of_nat (length (front ++ back)) * (B * B) < 2 ^ 53)%Z ->
        calculatePolygonArea (map wholePoint (back ++ front))
        = calculatePolygonArea (map wholePoint (front ++ back))).
Proof.
  split; [|split; [|split; [|split; [|split]]]].
  - intros points H. unfold calculatePolygonArea.
    apply Nat.ltb_lt in H. now rewrite H.
  - intros points H. unfold calculatePolygonArea.
    apply Nat.ltb_ge in H. rewrite H. now rewrite shoelace_ringEdges.
  - apply shoelace_exact.
  - intros front back. rewrite !shoelace_exact. apply shoelaceSumR_rotate.
  - apply calculatePolygonArea_whole.
  - apply calculatePolygonArea_whole_rotate.
Qed.

Lemma calculatePolygonArea_shoelace_witness :
  calculatePolygonArea [new_Vector3 1 0 1; new_Vector3 2 0 5] = 0
  /\ calculatePolygonArea
       [new_Vector3 0 0 0; new_Vector3 2 0 0; new_Vector3 2 0 2; new_Vector3 0 0 2]
     = Math.abs (shoelaceOver PrimFloat.add PrimFloat.sub PrimFloat.mul 0
                   (ringEdges (map in_plane
                      [new_Vector3 0 0 0; new_Vector3 2 0 0;
                       new_Vector3 2 0 2; new_Vector3 0 0 2]))) / 2
  /\ calculatePolygonArea (map wholePoint [(0, 0); (2, 0); (2, 2); (0, 2)]%Z)
     = Math.abs (Z2F (shoelaceZ [(0, 0); (2, 0); (2, 2); (0, 2)]%Z)) / 2
  /\ calculatePolygonArea (map wholePoint ([(2, 0); (2, 2); (0, 2)] ++ [(0, 0)])%Z)
     = calculatePolygonArea (map wholePoint ([(0, 0)] ++ [(2, 0); (2, 2); (0, 2)])%Z).
Proof.
  split; [|split; [|split]].
  - apply (proj1 calculatePolygonArea_shoelace). simpl. lia.
  - apply (proj1 (proj2 calculatePolygonArea_shoelace)). simpl. lia.
  - apply (proj1 (proj2 (proj2 (proj2 (proj2 calculatePolygonArea_shoelace)))) 2%Z).
    + repeat constructor; simpl; lia.
    + simpl. lia.
    + simpl. lia.
  - apply (proj2 (proj2 (proj2 (proj2 (proj2 calculatePolygonArea_shoelace)))) 2%Z).
    + repeat constructor; simpl; lia.
    + simpl. lia.
Defined.

(** C8 fails at the invariance, and by more than the last digits: the square
    of side 2 with a corner at (94906263, 94906263) has area 4 from its first
    vertex and 4.5 from its second.  Every product is exact; from the second
    vertex one running sum passes 2^53 and is rounded. *)
Lemma far_square_area_depends_on_start :
  calculatePolygonArea far_square = 4
  /\ calculatePolygonArea far_square_from_second = 4.5
  /\ (calculatePolygonArea far_square =? calculatePolygonArea far_square_from_second)
     = false.
Proof. vm_compute. repeat split. Qed.

(** Near the origin the two areas differ in their last digits. *)
Lemma square_area_depends_on_start :
  calculatePolygonArea square = 3.9999999999999996
  /\ calculatePolygonArea square_from_second = 3.9999999999999987
  /\ (calculatePolygonArea square =? calculatePolygonArea square_from_second) = false.
Proof. vm_compute. repeat split. Qed.

Example square_area :
  calculatePolygonArea
    [new_Vector3 0 0 0; new_Vector3 2 0 0; new_Vector3 2 0 2; new_Vector3 0 0 2] = 4
  /\ calculatePolygonArea (map wholePoint [(0, 0); (2, 0); (2, 2); (0, 2)]%Z) = 4.
Proof. split; reflexivity. Qed.

(** * The ordering of the points *)

Section SortFacts.

Context {A : Type}.
Variable comparefn : A -> A -> float.

Hypothesis before_asym : forall a b, (comparefn a b <? 0) = true -> (comparefn b a <? 0) = false.
Hypothesis before_trans :
  forall a b c, (comparefn a b <? 0) = true -> (comparefn b c <? 0) = true -> (comparefn a c <? 0) = true.

Lemma insert_In (a c : A) (l : list A) :
  In c (Array.insert comparefn a l) -> c = a \/ In c l.
Proof.
  intros H. apply (Permutation_in _ (insert_perm comparefn a l)) in H.
  destruct H as [<- | H]; auto.
Qed.

Lemma insert_sorted (a : A) (l : list A) :
  StronglySorted (fun u v => (comparefn v u <? 0) = false) l ->
  StronglySorted (fun u v => (comparefn v u <? 0) = false) (Array.insert comparefn a l).
Proof.
  induction l as [|b l IH]; intros Hs; simpl.
  - repeat constructor.
  - inversion Hs as [|? ? Hl Hb]; subst.
    destruct ((comparefn a b <? 0)) eqn:E.
    + constructor; [exact Hs|]. constructor; [now apply before_asym|].
      rewrite Forall_forall in *. intros c Hc.
      destruct ((comparefn c a <? 0)) eqn:E'; [|reflexivity].
      rewrite <- (Hb c Hc). symmetry. now apply (before_trans c a b).
    + constructor; [now apply IH|].
      rewrite Forall_forall in *. intros c Hc.
      apply insert_In in Hc. destruct Hc as [-> | Hc]; auto.
Qed.

Lemma sort_sorted (l : list A) :
  StronglySorted (fun u v => (comparefn v u <? 0) = false) (Array.sort comparefn l).
Proof.
  unfold Array.sort.
  assert (H : forall acc, StronglySorted (fun u v => (comparefn v u <? 0) = false) acc ->
                StronglySorted (fun u v => (comparefn v u <? 0) = false)
                  (fold_left (fun sorted a => Array.insert comparefn a sorted) l acc)).
  { induction l as [|a l IH]; intros acc Hacc; simpl; [exact Hacc|].
    apply IH. now apply insert_sorted. }
  apply H. constructor.
Qed.

End SortFacts.

Lemma ltb_trans (a b c : float) : (a <? b) = true -> (b <? c) = true -> (a <? c) = true.
Proof.
  rewrite !FloatAxioms.ltb_spec. generalize (Prim2SF a) (Prim2SF b) (Prim2SF c).
  intros x y z0. sf_cases.
Qed.

Lemma not_ltb_leb (a b : float) :
  is_nan a = false -> is_nan b = false -> (a <? b) = false -> (b <=? a) = true.
Proof.
  intros Ha Hb H. destruct (leb_total a b Ha Hb) as [E | E]; [|exact E].
  destruct (b <=? a) eqn:E'; [reflexivity|].
  exfalso. revert Ha Hb H E E'. unfold is_nan.
  rewrite FloatAxioms.ltb_spec, !FloatAxioms.leb_spec, !FloatAxioms.eqb_spec.
  generalize (Prim2SF a) (Prim2SF b). intros x y. sf_cases.
Qed.

Lemma StronglySorted_among {A : Type} (R R' : A -> A -> Prop) (l : list A) :
  (forall a b, In a l -> In b l -> R a b -> R' a b) ->
  StronglySorted R l -> StronglySorted R' l.
Proof.
  intros H Hs. induction Hs as [|a l Hs IH Ha]; constructor.
  - apply IH. intros u v Hu Hv. apply H; now right.
  - rewrite Forall_forall in *. intros b Hb.
    apply H; [now left | now right | now apply Ha].
Qed.

Lemma sortPointsByAngle_not_below (atan2 : float -> float -> float)
    (points : list Vector3) :
  StronglySorted
    (fun a b => (angleAround atan2 (centroid points) b
                 <? angleAround atan2 (centroid points) a) = false)
    (sortPointsByAngle atan2 points).
Proof.
  unfold sortPointsByAngle.
  fold (centroid points).
  pose proof (sort_sorted
    (fun a b => angleAround atan2 (centroid points) a
                - angleAround atan2 (centroid points) b)) as H.
  cbv beta in H.
  apply (StronglySorted_among
           (fun u v => (angleAround atan2 (centroid points) v
                        - angleAround atan2 (centroid points) u <? 0) = false)).
  - intros a b _ _ Hab. now rewrite <- sub_ltb_zero.
  - apply H.
    + intros a b. rewrite !sub_ltb_zero. apply ltb_not_ltb.
    + intros a b c. rewrite !sub_ltb_zero. apply ltb_trans.
Qed.

(** X1: when every angle is a number, the points come out in ascending order
    of their angle around the centroid: the angle of a point is at most the
    angle of every point placed after it.  (With an angle that is not a
    number the comparator is not a consistent order, and the language leaves
    the order of the result to the engine.) *)
Theorem sortPointsByAngle_ascending (atan2 : float -> float -> float)
    (points : list Vector3) :
  Forall (fun p => is_nan (angleAround atan2 (centroid points) p) = false) points ->
  StronglySorted
    (fun a b => (angleAround atan2 (centroid points) a
                 <=? angleAround atan2 (centroid points) b) = true)
    (sortPointsByAngle atan2 points).
Proof.
  intros Hnum. rewrite Forall_forall in Hnum.
  apply (StronglySorted_among
           (fun a b => (angleAround atan2 (centroid points) b
                        <? angleAround atan2 (centroid points) a) = false)).
  - intros a b Ha Hb Hab.
    apply not_ltb_leb; [| | exact Hab]; apply Hnum;
      now apply (Permutation_in _ (sortPointsByAngle_perm atan2 points)).
  - apply sortPointsByAngle_not_below.
Qed.

Lemma sortPointsByAngle_ascending_witness :
  StronglySorted
    (fun a b =>
       (angleAround diamond
          (centroid [new_Vector3 2 0 2; new_Vector3 0 0 0; new_Vector3 0 0 2;
                     new_Vector3 2 0 0]) a
        <=? angleAround diamond
          (centroid [new_Vector3 2 0 2; new_Vector3 0 0 0; new_Vector3 0 0 2;
                     new_Vector3 2 0 0]) b) = true)
    (sortPointsByAngle diamond
       [new_Vector3 2 0 2; new_Vector3 0 0 0; new_Vector3 0 0 2; new_Vector3 2 0 0]).
Proof.
  apply sortPointsByAngle_ascending. repeat constructor.
Defined.

(** X2: sorting only reorders: the result has the points of the input, each as
    many times, and so as many points. *)
Theorem sortPointsByAngle_permutes (atan2 : float -> float -> float)
    (points : list Vector3) :
  Permutation (sortPointsByAngle atan2 points) points
  /\ length (sortPointsByAngle atan2 points) = length points.
Proof.
  pose proof (sortPointsByAngle_perm atan2 points) as H.
  split; [exact H | now apply Permutation_length].
Qed.

(** * More on the deduplication *)

Section DedupOrder.

Lemma keys_set_order {V : Type} (k : string) (v : V) (m : Map.t V) :
  Map.keys (Map.set k v m)
  = if existsb (String.eqb k) (Map.keys m) then Map.keys m else Map.keys m ++ [k].
Proof.
  induction m as [|[k0 v0] m IH]; simpl.
  - reflexivity.
  - rewrite (String.eqb_sym k k0). destruct (String.eqb k0 k); simpl.
    + reflexivity.
    + change (map fst (Map.set k v m)) with (Map.keys (Map.set k v m)).
      rewrite IH. change (map fst m) with (Map.keys m).
      destruct (existsb (String.eqb k) (Map.keys m)); reflexivity.
Qed.

Lemma uniquePoints_order (points : list Vector3) :
  Map.keys (uniquePoints points) = firstOccurrences (map pointKey points).
Proof.
  induction points as [|p points IH] using rev_ind.
  - reflexivity.
  - rewrite uniquePoints_snoc, keys_set_order, IH.
    unfold firstOccurrences. rewrite map_app, fold_left_app. reflexivity.
Qed.

Lemma firstOccurrences_length (ks seen : list string) :
  (length (fold_left (fun seen k => if existsb (String.eqb k) seen then seen
                                    else seen ++ [k]) ks seen)
   <= length seen + length ks)%nat.
Proof.
  revert seen. induction ks as [|k ks IH]; intros seen; simpl; [lia|].
  destruct (existsb (String.eqb k) seen).
  - specialize (IH seen). lia.
  - specialize (IH (seen ++ [k])). rewrite length_app in IH. simpl in IH. lia.
Qed.

Lemma set_fresh {V : Type} (k : string) (v : V) (m : Map.t V) :
  ~ In k (Map.keys m) -> Map.set k v m = m ++ [(k, v)].
Proof.
  induction m as [|[k0 v0] m IH]; simpl; intros H; [reflexivity|].
  destruct (String.eqb k0 k) eqn:E.
  - apply String.eqb_eq in E. tauto.
  - f_equal. apply IH. tauto.
Qed.

Lemma uniquePoints_distinct (points : list Vector3) :
  NoDup (map pointKey points) ->
  uniquePoints points = map (fun p => (pointKey p, p)) points.
Proof.
  induction points as [|p points IH] using rev_ind; intros H.
  - reflexivity.
  - rewrite map_app in H. simpl in H.
    apply NoDup_remove in H. rewrite app_nil_r in H. destruct H as [Hnd Hp].
    rewrite uniquePoints_snoc, IH by assumption.
    rewrite set_fresh.
    + now rewrite map_app.
    + unfold Map.keys. now rewrite map_map.
Qed.

Lemma removeDuplicatePoints_distinct (points : list Vector3) :
  NoDup (map pointKey points) -> removeDuplicatePoints points = points.
Proof.
  intros H. unfold removeDuplicatePoints. rewrite uniquePoints_distinct by assumption.
  unfold Map.values. rewrite map_map. apply map_id.
Qed.

End DedupOrder.

(** X3: the points are kept in the order in which their keys first occur: the
    keys of the result are the distinct keys of the input, first occurrences
    kept. *)
Theorem removeDuplicatePoints_first_occurrence_order (points : list Vector3) :
  map pointKey (removeDuplicatePoints points) = firstOccurrences (map pointKey points).
Proof.
  unfold removeDuplicatePoints. rewrite uniquePoints_keys. apply uniquePoints_order.
Qed.

(** X4: a list whose keys are pairwise different comes back unchanged, and
    deduplicating twice is deduplicating once. *)
Theorem removeDuplicatePoints_idempotent :
  (forall points, NoDup (map pointKey points) -> removeDuplicatePoints points = points)
  /\ (forall points,
        removeDuplicatePoints (removeDuplicatePoints points)
        = removeDuplicatePoints points).
Proof.
  split.
  - apply removeDuplicatePoints_distinct.
  - intros points. apply removeDuplicatePoints_distinct.
    apply removeDuplicatePoints_keys.
Qed.

Lemma removeDuplicatePoints_idempotent_witness :
  removeDuplicatePoints [new_Vector3 1 0 2; new_Vector3 3 0 4]
  = [new_Vector3 1 0 2; new_Vector3 3 0 4].
Proof.
  apply (proj1 removeDuplicatePoints_idempotent).
  vm_compute. repeat constructor; simpl; intuition discriminate.
Defined.

(** X5: deduplication adds nothing: every point of the result is a point of
    the input, and the result is no longer than the input. *)
Theorem removeDuplicatePoints_never_adds (points : list Vector3) :
  incl (removeDuplicatePoints points) points
  /\ (length (removeDuplicatePoints points) <= length points)%nat.
Proof.
  split.
  - intros p Hp. apply removeDuplicatePoints_last in Hp.
    now apply lastWithKey_Some in Hp.
  - rewrite <- (length_map pointKey (removeDuplicatePoints points)).
    unfold removeDuplicatePoints. rewrite uniquePoints_keys, uniquePoints_order.
    unfold firstOccurrences.
    pose proof (firstOccurrences_length (map pointKey points) []) as H.
    rewrite length_map in H. exact H.
Qed.

(** * Planes that meet no edge *)

Section Misses.

Lemma SFltb_not_leb (a b : spec_float) : SFltb a b = true -> SFleb b a = false.
Proof. sf_cases. Qed.

Lemma ltb_not_leb (a b : float) : (a <? b) = true -> (b <=? a) = false.
Proof. rewrite FloatAxioms.ltb_spec, FloatAxioms.leb_spec. apply SFltb_not_leb. Qed.

Lemma leb_nan_l (a : float) : (nan <=? a) = false.
Proof. rewrite FloatAxioms.leb_spec, Prim2SF_nan. reflexivity. Qed.

Lemma leb_nan_r (a : float) : (a <=? nan) = false.
Proof.
  rewrite FloatAxioms.leb_spec, Prim2SF_nan.
  destruct (Prim2SF a) as [[]|[]| |[] m e]; reflexivity.
Qed.

Lemma crosses_above (p q : Vector3) (h : float) :
  (h <? y p) = true -> (h <? y q) = true -> crosses p q h = false.
Proof.
  intros Hp Hq. unfold crosses.
  rewrite (ltb_not_leb _ _ Hp), (ltb_not_leb _ _ Hq).
  now rewrite andb_false_r.
Qed.

Lemma crosses_below (p q : Vector3) (h : float) :
  (y p <? h) = true -> (y q <? h) = true -> crosses p q h = false.
Proof.
  intros Hp Hq. unfold crosses.
  rewrite (ltb_not_leb _ _ Hp), (ltb_not_leb _ _ Hq).
  now rewrite andb_false_r.
Qed.

Lemma crosses_nan (p q : Vector3) : crosses p q nan = false.
Proof. unfold crosses. now rewrite !leb_nan_l, !leb_nan_r. Qed.

Lemma findIntersectionPoints_none (v1 v2 v3 : Vector3) (h : float) (pts : list Vector3) :
  crosses v1 v2 h = false -> crosses v2 v3 h = false -> crosses v3 v1 h = false ->
  findIntersectionPoints v1 v2 v3 h pts = pts.
Proof.
  intros H1 H2 H3. unfold findIntersectionPoints. simpl. now rewrite H1, H2, H3.
Qed.

(** What holds of the points before the loop over the triangles, and is kept
    by every call of the finder, holds of the points after it. *)
Lemma triangles_invariant (P : list Vector3 -> Prop) (ps : list float) (h : float) :
  (forall v1 v2 v3 pts, P pts -> P (findIntersectionPoints v1 v2 v3 h pts)) ->
  forall ids pts, P pts -> P (triangles ps ids h pts).
Proof.
  intros Hstep ids.
  assert (H : forall n ids, (length ids <= n)%nat ->
                forall pts, P pts -> P (triangles ps ids h pts)).
  { induction n as [|n IH]; intros [|i1 [|i2 [|i3 ids']]] Hlen pts Hpts;
      simpl in *; try exact Hpts; try lia; try (now apply Hstep).
    apply IH; [lia | now apply Hstep]. }
  apply (H (length ids)). lia.
Qed.

Lemma triangles_none (ps : list float) (h : float) (ids : list nat) (pts : list Vector3) :
  (length ids mod 3 = 0)%nat ->
  Forall (fun k => forall k', In k' ids ->
            crosses (vertex ps (Some k)) (vertex ps (Some k')) h = false) ids ->
  triangles ps ids h pts = pts.
Proof.
  assert (H : forall n ids, (length ids <= n)%nat -> (length ids mod 3 = 0)%nat ->
                Forall (fun k => forall k', In k' ids ->
                  crosses (vertex ps (Some k)) (vertex ps (Some k')) h = false) ids ->
                triangles ps ids h pts = pts).
  { induction n as [|n IH]; intros [|i1 [|i2 [|i3 ids']]] Hlen Hmod Hall;
      simpl in Hlen; try reflexivity; try lia; try discriminate Hmod.
    cbn [triangles]. rewrite Forall_forall in Hall.
    rewrite findIntersectionPoints_none.
    - apply IH; [lia | |].
      + change (length (i1 :: i2 :: i3 :: ids')) with (3 + length ids')%nat in Hmod.
        replace (3 + length ids')%nat with (length ids' + 1 * 3)%nat in Hmod by lia.
        now rewrite Nat.Div0.mod_add in Hmod.
      + rewrite Forall_forall. intros k Hk k' Hk'.
        apply Hall; simpl; auto.
    - apply Hall; simpl; auto.
    - apply Hall; simpl; auto.
    - apply Hall; simpl; auto. }
  intros Hmod Hall. apply (H (length ids)); auto.
Qed.

End Misses.

(** X6: a triangle wholly above the plane, one wholly below it, and any
    triangle when the elevation is not a number, add no point. *)
Theorem findIntersectionPoints_plane_misses (v1 v2 v3 : Vector3) (height : float)
    (intersectionPoints : list Vector3) :
  ((height <? y v1) = true /\ (height <? y v2) = true /\ (height <? y v3) = true)
  \/ ((y v1 <? height) = true /\ (y v2 <? height) = true /\ (y v3 <? height) = true)
  \/ is_nan height = true ->
  findIntersectionPoints v1 v2 v3 height intersectionPoints = intersectionPoints.
Proof.
  intros [(H1 & H2 & H3) | [(H1 & H2 & H3) | H]].
  - apply findIntersectionPoints_none; now apply crosses_above.
  - apply findIntersectionPoints_none; now apply crosses_below.
  - apply is_nan_spec in H. subst height.
    apply findIntersectionPoints_none; apply crosses_nan.
Qed.

Lemma findIntersectionPoints_plane_misses_witness :
  findIntersectionPoints (new_Vector3 0 1 0) (new_Vector3 1 2 0) (new_Vector3 0 3 1) 0.5
    [new_Vector3 7 0.5 7]
  = [new_Vector3 7 0.5 7].
Proof.
  apply findIntersectionPoints_plane_misses. left. repeat split; reflexivity.
Defined.

(** X7: when the plane passes strictly above every vertex of the triangles of
    a mesh, or strictly below every one of them, the cross-section area is 0;
    and so it is at an elevation that is not a number, whatever the mesh. *)
Theorem calculateCrossSectionArea_plane_misses (atan2 : float -> float -> float)
    (mesh : Mesh) (ps : list float) (ids : list nat) (height : float) :
  positions mesh = Some ps -> indices mesh = Some ids ->
  (length ids mod 3 = 0)%nat
  /\ (Forall (fun k => (y (vertex ps (Some k)) <? height) = true) ids
      \/ Forall (fun k => (height <? y (vertex ps (Some k))) = true) ids)
  \/ is_nan height = true ->
  calculateCrossSectionArea atan2 mesh height = 0.
Proof.
  intros Hps Hids H. unfold calculateCrossSectionArea. rewrite Hps, Hids.
  assert (E : triangles ps ids height [] = []).
  { destruct H as [[Hmod [Hall | Hall]] | Hnan].
    - apply triangles_none; [exact Hmod|].
      rewrite Forall_forall in *. intros k Hk k' Hk'.
      apply crosses_below; auto.
    - apply triangles_none; [exact Hmod|].
      rewrite Forall_forall in *. intros k Hk k' Hk'.
      apply crosses_above; auto.
    - apply is_nan_spec in Hnan. subst height.
      apply (triangles_invariant (fun pts => pts = [])); [|reflexivity].
      intros v1 v2 v3 pts ->.
      apply findIntersectionPoints_none; apply crosses_nan. }
  rewrite E. reflexivity.
Qed.

Lemma calculateCrossSectionArea_plane_misses_witness :
  calculateCrossSectionArea diamond cube 2 = 0.
Proof.
  apply (calculateCrossSectionArea_plane_misses diamond cube
           [0; 0; 0;   1; 0; 0;   1; 0; 1;   0; 0; 1;
            0; 1; 0;   1; 1; 0;   1; 1; 1;   0; 1; 1]
           [0; 1; 2;  0; 2; 3;  4; 5; 6;  4; 6; 7;
            0; 1; 5;  0; 5; 4;  1; 2; 6;  1; 6; 5;
            2; 3; 7;  2; 7; 6;  3; 0; 4;  3; 4; 7]%nat 2).
  - reflexivity.
  - reflexivity.
  - left. split; [reflexivity|]. left. repeat constructor.
Defined.

(** X8: every point the cross-section hands to the area computation lies at
    the cutting elevation. *)
Theorem cross_section_points_on_plane (atan2 : float -> float -> float)
    (ps : list float) (ids : list nat) (height : float) :
  Forall (fun p => y p = height)
    (sortPointsByAngle atan2 (removeDuplicatePoints (triangles ps ids height []))).
Proof.
  assert (Ht : Forall (fun p => y p = height) (triangles ps ids height [])).
  { apply (triangles_invariant (Forall (fun p => y p = height))); [|constructor].
    intros v1 v2 v3 pts Hpts. unfold findIntersectionPoints. simpl.
    repeat match goal with
           | |- context [crosses ?a ?b ?c] => destruct (crosses a b c)
           end;
      repeat (apply Forall_app; split); auto; repeat constructor. }
  rewrite Forall_forall in *. intros p Hp.
  apply (Permutation_in _ (sortPointsByAngle_perm atan2 _)) in Hp.
  apply removeDuplicatePoints_last in Hp. apply lastWithKey_Some in Hp.
  apply Ht. apply Hp.
Qed.

(** X9: the cross-section area is 0 whenever the intersection points have
    fewer than three different keys. *)
Theorem calculateCrossSectionArea_few_points (atan2 : float -> float -> float)
    (mesh : Mesh) (ps : list float) (ids : list nat) (height : float) :
  positions mesh = Some ps -> indices mesh = Some ids ->
  (length (firstOccurrences (map pointKey (triangles ps ids height []))) < 3)%nat ->
  calculateCrossSectionArea atan2 mesh height = 0%float.
Proof.
  intros Hps Hids H. unfold calculateCrossSectionArea. rewrite Hps, Hids.
  unfold calculatePolygonArea.
  rewrite (Permutation_length (sortPointsByAngle_perm atan2 _)).
  rewrite <- (length_map pointKey (removeDuplicatePoints _)).
  unfold removeDuplicatePoints at 1. rewrite uniquePoints_keys, uniquePoints_order.
  apply Nat.ltb_lt in H. rewrite H. reflexivity.
Qed.

Lemma calculateCrossSectionArea_few_points_witness :
  calculateCrossSectionArea diamond one_triangle 0.5 = 0.
Proof.
  apply (calculateCrossSectionArea_few_points diamond one_triangle
           [0; 0; 0;   1; 1; 0;   0; 1; 1] [0; 1; 2]%nat 0.5).
  - reflexivity.
  - reflexivity.
  - vm_compute. lia.
Defined.

(** * Results are never negative *)

Section Signs.

Variable atan2 : float -> float -> float.

Lemma ltb_nan_l (a : float) : (nan <? a) = false.
Proof. rewrite FloatAxioms.ltb_spec, Prim2SF_nan. reflexivity. Qed.

Lemma min_not_below (a b c : float) :
  (a <? c) = false -> (b <? c) = false -> (Math.min a b <? c) = false.
Proof.
  intros Ha Hb. unfold Math.min.
  destruct (is_nan a || is_nan b); [apply ltb_nan_l|].
  destruct (a <? b); [exact Ha|].
  destruct (b <? a); [exact Hb|].
  destruct (get_sign a); assumption.
Qed.

Lemma polygon_area_nonneg (points : list Vector3) :
  (calculatePolygonArea points <? 0) = false.
Proof.
  unfold calculatePolygonArea. destruct (length points <? 3)%nat; [reflexivity|].
  apply div_nonneg; [apply abs_nonneg | reflexivity].
Qed.

Lemma cross_section_area_nonneg (mesh : Mesh) (height : float) :
  (calculateCrossSectionArea atan2 mesh height <? 0) = false.
Proof.
  unfold calculateCrossSectionArea.
  destruct (positions mesh); [|reflexivity].
  destruct (indices mesh); [|reflexivity].
  apply polygon_area_nonneg.
Qed.

Lemma slice_nonneg (mesh : Mesh) (minY sliceHeight : float) (i : Z) (total : float) :
  (sliceHeight <? 0) = false -> (total <? 0) = false ->
  (slice atan2 mesh minY sliceHeight i total <? 0) = false.
Proof.
  intros Hs Ht. unfold slice. apply add_nonneg; [exact Ht|].
  apply div_nonneg; [|reflexivity].
  apply mul_nonneg; [exact Hs|].
  apply add_nonneg; apply cross_section_area_nonneg.
Qed.

Lemma slices_nonneg (mesh : Mesh) (minY sliceHeight : float) (l : list nat)
    (total : float) :
  (sliceHeight <? 0) = false -> (total <? 0) = false ->
  (fold_left (fun s i => slice atan2 mesh minY sliceHeight (Z.of_nat i) s) l total <? 0)
  = false.
Proof.
  intros Hs. revert total. induction l as [|i l IH]; intros total Ht; simpl.
  - exact Ht.
  - apply IH. now apply slice_nonneg.
Qed.

End Signs.

(** X10: no area is negative: the area of a polygon and the cross-section
    area of a mesh are never below 0 (they are 0 or more, or not a number). *)
Theorem areas_never_negative :
  (forall points : list Vector3, (calculatePolygonArea points <? 0) = false)
  /\ (forall (atan2 : float -> float -> float) (mesh : Mesh) (height : float),
        (calculateCrossSectionArea atan2 mesh height <? 0) = false).
Proof.
  split.
  - apply polygon_area_nonneg.
  - apply cross_section_area_nonneg.
Qed.

(** X11: for a mesh whose bounding box does not have its top below its bottom,
    the volume estimate is never below 0, at any target elevation and for any
    number of slices. *)
Theorem volume_never_negative (atan2 : float -> float -> float)
    (mesh : Mesh) (height : float) (slices : Z) :
  (maximumWorld_y mesh <? minimumWorld_y mesh) = false ->
  (calculateVolumeUpToHeight atan2 mesh height slices <? 0) = false.
Proof.
  intros Hbox. unfold calculateVolumeUpToHeight.
  destruct (positions mesh); [|reflexivity].
  destruct (indices mesh); [|reflexivity].
  destruct (height <? minimumWorld_y mesh) eqn:Hmin; [reflexivity|].
  destruct (Z_le_gt_dec slices 0) as [Hle | Hgt].
  - rewrite for_range_nonpos by exact Hle. reflexivity.
  - unfold Array.for_range. apply slices_nonneg; [|reflexivity].
    apply div_nonneg.
    + rewrite sub_ltb_zero. now apply min_not_below.
    + apply Z2F_positive. lia.
Qed.

Lemma volume_never_negative_witness :
  (calculateVolumeUpToHeight diamond bipyramid 1.5 7 <? 0) = false.
Proof. apply volume_never_negative. reflexivity. Defined.

(** * How not-a-number spreads *)

Section Spreading.

Variable atan2 : float -> float -> float.

Lemma shoelaceOver_nan_edge_z (edges : list ((float * float) * (float * float)))
    (e : (float * float) * (float * float)) (area : float) :
  In e edges -> snd (fst e) = nan ->
  fold_left (fun area e =>
               area + fst (fst e) * snd (snd e) - fst (snd e) * snd (fst e))
            edges area = nan.
Proof.
  revert area. induction edges as [|e' edges IH]; intros area Hin He; [destruct Hin|].
  destruct Hin as [-> | Hin]; simpl.
  - rewrite He, nan_mul_r, nan_sub_r. apply shoelaceOver_nan.
  - now apply IH.
Qed.

Lemma calculatePolygonArea_nan_z (points : list Vector3) (p : Vector3) :
  (3 <= length points)%nat -> In p points -> z p = nan ->
  calculatePolygonArea points = nan.
Proof.
  intros Hlen Hin Hz. unfold calculatePolygonArea.
  apply Nat.ltb_ge in Hlen. rewrite Hlen.
  rewrite shoelace_ringEdges. unfold shoelaceOver.
  destruct (ringEdges_fst (map in_plane points) (in_plane p)) as [b Hb];
    [now apply in_map|].
  rewrite (shoelaceOver_nan_edge_z _ _ _ Hb Hz). reflexivity.
Qed.

Lemma slice_area_nan_upper (mesh : Mesh) (minY sliceHeight : float) (i : Z)
    (total : float) :
  calculateCrossSectionArea atan2 mesh (minY + Z2F i * sliceHeight + sliceHeight) = nan ->
  slice atan2 mesh minY sliceHeight i total = nan.
Proof.
  intros H. unfold slice. rewrite H.
  now rewrite nan_add_r, nan_mul_r, nan_div_l, nan_add_r.
Qed.

Lemma slices_slice_nan (mesh : Mesh) (minY sliceHeight : float) (l : list nat) (i : nat)
    (total : float) :
  In i l ->
  (forall total, slice atan2 mesh minY sliceHeight (Z.of_nat i) total = nan) ->
  fold_left (fun s i => slice atan2 mesh minY sliceHeight (Z.of_nat i) s) l total = nan.
Proof.
  revert total. induction l as [|j l IH]; intros total Hin H; [destruct Hin|].
  destruct Hin as [-> | Hin]; simpl.
  - rewrite H. apply slices_nan.
  - now apply IH.
Qed.

Lemma slice_height_nan (mesh : Mesh) (minY : float) (i : Z) (total : float) :
  slice atan2 mesh minY nan i total = nan.
Proof. unfold slice. now rewrite nan_mul_l, nan_div_l, nan_add_r. Qed.

Lemma min_nan (a b : float) : (is_nan a || is_nan b) = true -> Math.min a b = nan.
Proof. intros H. unfold Math.min. now rewrite H. Qed.

End Spreading.

(** X12: a point with a coordinate in the plane, [x] or [z], that is not a
    number makes the area of a polygon of three points or more not a
    number. *)
Theorem calculatePolygonArea_not_a_number (points : list Vector3) (p : Vector3) :
  (3 <= length points)%nat -> In p points ->
  (is_nan (x p) || is_nan (z p)) = true ->
  calculatePolygonArea points = nan.
Proof.
  intros Hlen Hin H. apply orb_true_iff in H. destruct H as [H | H];
    apply is_nan_spec in H.
  - now apply (calculatePolygonArea_nan points p).
  - now apply (calculatePolygonArea_nan_z points p).
Qed.

Lemma calculatePolygonArea_not_a_number_witness :
  calculatePolygonArea
    [new_Vector3 0 0 0; new_Vector3 1 0 nan; new_Vector3 1 0 1; new_Vector3 0 0 1] = nan.
Proof.
  apply (calculatePolygonArea_not_a_number _ (new_Vector3 1 0 nan)).
  - simpl. lia.
  - simpl. auto.
  - reflexivity.
Defined.

(** X13: one cross-section area that is not a number, at the lower or at the
    upper end of any slice, makes the whole estimate not a number: no later
    slice brings it back. *)
Theorem not_a_number_area_spoils_the_estimate (atan2 : float -> float -> float)
    (mesh : Mesh) (ps : list float) (ids : list nat)
    (height : float) (slices : Z) (i : Z) :
  positions mesh = Some ps -> indices mesh = Some ids ->
  (height <? minimumWorld_y mesh) = false ->
  (0 <= i < slices)%Z ->
  (let sliceHeight :=
     (Math.min height (maximumWorld_y mesh) - minimumWorld_y mesh) / Z2F slices in
   let currentHeight := minimumWorld_y mesh + Z2F i * sliceHeight in
   calculateCrossSectionArea atan2 mesh currentHeight = nan
   \/ calculateCrossSectionArea atan2 mesh (currentHeight + sliceHeight) = nan) ->
  calculateVolumeUpToHeight atan2 mesh height slices = nan.
Proof.
  intros Hps Hids Hmin Hi H. cbv zeta in H. unfold calculateVolumeUpToHeight.
  rewrite Hps, Hids, Hmin. unfold Array.for_range.
  apply (slices_slice_nan _ _ _ _ _ (Z.to_nat i)).
  - apply in_seq. lia.
  - intros total. rewrite Z2Nat.id by lia. destruct H as [H | H].
    + now apply slice_area_nan.
    + now apply slice_area_nan_upper.
Qed.

Lemma not_a_number_area_spoils_the_estimate_witness :
  calculateVolumeUpToHeight diamond cube 1 4 = nan.
Proof.
  apply (not_a_number_area_spoils_the_estimate diamond cube
           [0; 0; 0;   1; 0; 0;   1; 0; 1;   0; 0; 1;
            0; 1; 0;   1; 1; 0;   1; 1; 1;   0; 1; 1]
           [0; 1; 2;  0; 2; 3;  4; 5; 6;  4; 6; 7;
            0; 1; 5;  0; 5; 4;  1; 2; 6;  1; 6; 5;
            2; 3; 7;  2; 7; 6;  3; 0; 4;  3; 4; 7]%nat 1 4 3).
  - reflexivity.
  - reflexivity.
  - reflexivity.
  - lia.
  - right. vm_compute. reflexivity.
Defined.

(** X14: when the target elevation, or the bottom or the top of the bounding
    box, is not a number, and the target is not below the bottom (it never is
    when one of the two is not a number), a mesh with data and one slice or
    more gets an estimate that is not a number. *)
Theorem not_a_number_input_gives_not_a_number (atan2 : float -> float -> float)
    (mesh : Mesh) (ps : list float) (ids : list nat) (height : float) (slices : Z) :
  positions mesh = Some ps -> indices mesh = Some ids ->
  (1 <= slices)%Z ->
  (height <? minimumWorld_y mesh) = false ->
  (is_nan height || is_nan (maximumWorld_y mesh) || is_nan (minimumWorld_y mesh)) = true ->
  calculateVolumeUpToHeight atan2 mesh height slices = nan.
Proof.
  intros Hps Hids Hs Hlt H. unfold calculateVolumeUpToHeight. rewrite Hps, Hids, Hlt.
  assert (Hh : (Math.min height (maximumWorld_y mesh) - minimumWorld_y mesh)
               / Z2F slices = nan).
  { apply orb_true_iff in H. destruct H as [H | H].
    - now rewrite (min_nan _ _ H), nan_sub_l, nan_div_l.
    - apply is_nan_spec in H. now rewrite H, nan_sub_r, nan_div_l. }
  rewrite Hh. unfold Array.for_range.
  apply (slices_slice_nan _ _ _ _ _ 0%nat).
  - apply in_seq. lia.
  - intros total. apply slice_height_nan.
Qed.

Lemma not_a_number_input_gives_not_a_number_witness :
  calculateVolumeUpToHeight diamond cube nan 100 = nan.
Proof.
  apply (not_a_number_input_gives_not_a_number diamond cube
           [0; 0; 0;   1; 0; 0;   1; 0; 1;   0; 0; 1;
            0; 1; 0;   1; 1; 0;   1; 1; 1;   0; 1; 1]
           [0; 1; 2;  0; 2; 3;  4; 5; 6;  4; 6; 7;
            0; 1; 5;  0; 5; 4;  1; 2; 6;  1; 6; 5;
            2; 3; 7;  2; 7; 6;  3; 0; 4;  3; 4; 7]%nat nan 100).
  - reflexivity.
  - reflexivity.
  - lia.
  - reflexivity.
  - reflexivity.
Defined.

(** * The shoelace sum over the real numbers: orientation and position *)

Section RealRing.

Local Open Scope R_scope.





End RealRing.



(** * A range of elevations without height *)

Section FlatRange.

Variable atan2 : float -> float -> float.

Lemma SFsub_equal (a b : spec_float) :
  SFltb a b = false -> SFltb b a = false ->
  zero_or_nan_sf (SFsub prec emax a b) = true.
Proof.
  destruct a as [sa|sa| |sa ma ea], b as [sb|sb| |sb mb eb];
    try reflexivity;
    try (destruct sa; try destruct sb; simpl; intros; try discriminate; reflexivity);
    try (destruct sb; simpl; intros; try discriminate; reflexivity).
  unfold SFltb, SFcompare. change (Pos.compare_cont Eq) with Pos.compare.
  intros H1 H2.
  assert (E : sa = sb /\ ea = eb /\ ma = mb).
  { destruct sa, sb; try discriminate;
      rewrite (Z.compare_antisym ea eb) in H2;
      rewrite (Pos.compare_antisym ma mb) in H2;
      destruct (Z.compare_spec ea eb); simpl in *; try discriminate;
      destruct (Pos.compare_spec ma mb); simpl in *; try discriminate;
      subst; auto. }
  destruct E as (-> & -> & ->).
  unfold SFsub. rewrite Z.sub_diag. reflexivity.
Qed.

Lemma sub_equal (a b : float) :
  (a <? b) = false -> (b <? a) = false -> zero_or_nan_sf (Prim2SF (a - b)) = true.
Proof. rewrite !FloatAxioms.ltb_spec, sub_spec. apply SFsub_equal. Qed.

Lemma mul_zero_or_nan (a b : float) :
  zero_or_nan_sf (Prim2SF a) = true -> zero_or_nan_sf (Prim2SF (a * b)) = true.
Proof.
  rewrite mul_spec.
  destruct (Prim2SF a) as [sa|sa| |sa ma ea], (Prim2SF b) as [sb|sb| |sb mb eb];
    try discriminate; reflexivity.
Qed.

Lemma div_zero_or_nan (a b : float) :
  zero_or_nan_sf (Prim2SF a) = true -> zero_or_nan_sf (Prim2SF (a / b)) = true.
Proof.
  rewrite div_spec.
  destruct (Prim2SF a) as [sa|sa| |sa ma ea], (Prim2SF b) as [sb|sb| |sb mb eb];
    try discriminate; reflexivity.
Qed.

Lemma add_zero_or_nan (total v : float) :
  total = 0 \/ total = nan -> zero_or_nan_sf (Prim2SF v) = true ->
  total + v = 0 \/ total + v = nan.
Proof.
  intros [-> | ->] Hv; [|right; apply nan_add_l].
  destruct (Prim2SF v) as [sv|sv| |sv mv ev] eqn:E; try discriminate.
  - left. apply Prim2SF_inj. rewrite add_spec, E. destruct sv; reflexivity.
  - right. apply Prim2SF_inj. rewrite add_spec, E. reflexivity.
Qed.

Lemma slices_zero_or_nan (mesh : Mesh) (minY sliceHeight : float) (l : list nat)
    (total : float) :
  zero_or_nan_sf (Prim2SF sliceHeight) = true ->
  total = 0 \/ total = nan ->
  let v := fold_left (fun s i => slice atan2 mesh minY sliceHeight (Z.of_nat i) s) l total in
  v = 0 \/ v = nan.
Proof.
  intros Hs. revert total. induction l as [|i l IH]; intros total Ht; simpl.
  - exact Ht.
  - apply IH. unfold slice. apply add_zero_or_nan; [exact Ht|].
    now apply div_zero_or_nan, mul_zero_or_nan.
Qed.

Lemma ltb_nan_right (a : float) : (a <? nan) = false.
Proof.
  rewrite FloatAxioms.ltb_spec, Prim2SF_nan.
  destruct (Prim2SF a) as [[]|[]| |[] m e]; reflexivity.
Qed.

Lemma min_not_above (a b c : float) :
  (c <? a) = false \/ (c <? b) = false -> (c <? Math.min a b) = false.
Proof.
  intros H. unfold Math.min.
  destruct (is_nan a || is_nan b) eqn:En; [apply ltb_nan_right|].
  apply orb_false_iff in En. destruct En as [Ea Eb].
  assert (Hab : (a <=? b) = true -> (c <? a) = false).
  { intros Hle. destruct H as [H | H]; [exact H|].
    destruct (c <? a) eqn:E; [|reflexivity].
    now rewrite (ltb_leb_trans _ _ _ E Hle) in H. }
  assert (Hba : (b <=? a) = true -> (c <? b) = false).
  { intros Hle. destruct H as [H | H]; [|exact H].
    destruct (c <? b) eqn:E; [|reflexivity].
    now rewrite (ltb_leb_trans _ _ _ E Hle) in H. }
  destruct (a <? b) eqn:E1.
  - apply Hab. destruct (leb_total a b Ea Eb) as [L | L]; [exact L|].
    now rewrite (leb_not_ltb _ _ L) in E1.
  - destruct (b <? a) eqn:E2.
    + apply Hba. destruct (leb_total a b Ea Eb) as [L | L]; [|exact L].
      now rewrite (leb_not_ltb _ _ L) in E2.
    + destruct (get_sign a).
      * apply Hab. now apply not_ltb_leb.
      * apply Hba. now apply not_ltb_leb.
Qed.

End FlatRange.

(** X17: when the target elevation is at the bottom of the bounding box, or
    the box has no thickness, the range to integrate over has no height, and
    the estimate is 0 or not a number, nothing else. *)
Theorem volume_of_a_flat_range (atan2 : float -> float -> float)
    (mesh : Mesh) (height : float) (slices : Z) :
  (height <? minimumWorld_y mesh) = false ->
  (maximumWorld_y mesh <? minimumWorld_y mesh) = false ->
  (minimumWorld_y mesh <? height) = false
  \/ (minimumWorld_y mesh <? maximumWorld_y mesh) = false ->
  calculateVolumeUpToHeight atan2 mesh height slices = 0
  \/ calculateVolumeUpToHeight atan2 mesh height slices = nan.
Proof.
  intros Hlow Hbox Hflat. unfold calculateVolumeUpToHeight.
  destruct (positions mesh); [|now left].
  destruct (indices mesh); [|now left].
  rewrite Hlow. unfold Array.for_range.
  apply slices_zero_or_nan; [|now left].
  apply div_zero_or_nan, sub_equal.
  - now apply min_not_below.
  - now apply min_not_above.
Qed.

Lemma volume_of_a_flat_range_witness :
  calculateVolumeUpToHeight diamond bipyramid 0 10 = 0
  \/ calculateVolumeUpToHeight diamond bipyramid 0 10 = nan.
Proof.
  apply volume_of_a_flat_range.
  - reflexivity.
  - reflexivity.
  - left. reflexivity.
Defined.


(** * The calculator on small inputs *)

Example toFixed_half : Number.toFixed 0.5 6 = "0.500000"%string.
Proof. reflexivity. Qed.

Example toFixed_negative_zero : Number.toFixed (-0) 6 = "0.000000"%string.
Proof. reflexivity. Qed.

Example toFixed_rounds_to_nearest : Number.toFixed 123.4567895 6 = "123.456789"%string.
Proof. reflexivity. Qed.

Example toFixed_large : Number.toFixed 1e21 6 = "1e+21"%string.
Proof. reflexivity. Qed.

Example toFixed_nan : Number.toFixed nan 6 = "NaN"%string.
Proof. reflexivity. Qed.

Example min_signed_zeros : Math.min 0 (-0) = (-0) /\ Math.min nan 1 = nan.
Proof. split; reflexivity. Qed.

Example sort_numbers : Array.sort (fun a b => a - b) [3; 1; 2; 0.5] = [0.5; 1; 2; 3].
Proof. reflexivity. Qed.

Example cube_area_midway : calculateCrossSectionArea diamond cube 0.5 = 1.
Proof. vm_compute. reflexivity. Qed.

Example bipyramid_volume_quarters :
  calculateVolumeUpToHeight diamond bipyramid 0.5 4 = 0.34375.
Proof. vm_compute. reflexivity. Qed.
